(** * Tetris Stack: the circular queue of upcoming pieces (tetris.c)

    A shallow embedding of [tetris.c] and the properties of its queue.

    - C [int] values are integers in [Z]; arithmetic that can leave the
      32-bit range wraps around ([int_wrap]), and [%] truncates toward
      zero ([Z.rem]).
    - The array [Peca elementos[CAPACIDADE_FILA]] is a vector of five
      pieces.  An access outside [0 .. CAPACIDADE_FILA - 1] is undefined
      behaviour in C; the embedding returns [None] there.
    - The global [proximo_id_peca], the state of [rand()] and the text
      written by [printf] live in a record [Mundo] threaded through a
      state-and-failure monad [M].
    - A [FilaPecas*] argument becomes a queue value passed in and returned. *)

From stdpp Require Import base numbers option list vector.
From Stdlib Require Import ZArith Ascii Lia.

Local Open Scope Z_scope.

(** ** Machine integers *)

Definition INT_MIN : Z := -2147483648.
Definition INT_MAX : Z := 2147483647.

(** Reduction of a mathematical integer to the 32-bit two's complement range. *)
Definition int_wrap (z : Z) : Z := (z + 2147483648) mod 4294967296 - 2147483648.

Definition int_add (a b : Z) : Z := int_wrap (a + b).
Definition int_sub (a b : Z) : Z := int_wrap (a - b).

(** The C operator [%]: the remainder has the sign of the dividend. *)
Definition int_mod (a b : Z) : Z := Z.rem a b.

(** ** Global definitions *)

(** [#define CAPACIDADE_FILA 5] *)
Definition CAPACIDADE_FILA : Z := 5.

(** [typedef struct { char tipo; int id; } Peca;] *)
Record Peca : Type := { tipo : ascii; id : Z }.

(** [typedef struct { Peca elementos[CAPACIDADE_FILA]; int frente; int tras;
    int tamanho; } FilaPecas;] *)
Record FilaPecas : Type := {
  elementos : vec Peca 5;
  frente : Z;
  tras : Z;
  tamanho : Z
}.

Definition set_elementos (fila : FilaPecas) (v : vec Peca 5) : FilaPecas :=
  {| elementos := v; frente := frente fila; tras := tras fila;
     tamanho := tamanho fila |}.

Definition set_frente (fila : FilaPecas) (z : Z) : FilaPecas :=
  {| elementos := elementos fila; frente := z; tras := tras fila;
     tamanho := tamanho fila |}.

Definition set_tras (fila : FilaPecas) (z : Z) : FilaPecas :=
  {| elementos := elementos fila; frente := frente fila; tras := z;
     tamanho := tamanho fila |}.

Definition set_tamanho (fila : FilaPecas) (z : Z) : FilaPecas :=
  {| elementos := elementos fila; frente := frente fila; tras := tras fila;
     tamanho := z |}.

(** ** Text written to the terminal

    One constructor per [printf] call of the program, carrying the values
    substituted into its format string. *)
Inductive Saida : Type :=
  | MsgFilaCheia (maximo : Z)
  | MsgPecaInserida (t : ascii) (i : Z)
  | MsgFilaVazia
  | MsgPecaJogada (t : ascii) (i : Z)
  | CabecalhoFila (ocupacao maximo : Z)
  | TextoVazia
  | PrefixoFila
  | ItemFila (t : ascii) (i : Z)
  | Seta
  | NovaLinha
  | FimDaFila
  | TextoMenu
  | MsgSaindo
  | MsgOpcaoInvalida
  | MsgPressioneEnter.

(** ** The world outside the queue *)

Record Mundo : Type := {
  proximo_id_peca : Z;          (* int proximo_id_peca = 0; *)
  rand_fonte : N -> N;          (* the values rand() hands out, call by call *)
  rand_chamadas : N;            (* how many times rand() has been called *)
  stdout : list Saida           (* everything printed so far, oldest first *)
}.

Definition set_proximo_id_peca (w : Mundo) (z : Z) : Mundo :=
  {| proximo_id_peca := z; rand_fonte := rand_fonte w;
     rand_chamadas := rand_chamadas w; stdout := stdout w |}.

Definition set_rand_chamadas (w : Mundo) (n : N) : Mundo :=
  {| proximo_id_peca := proximo_id_peca w; rand_fonte := rand_fonte w;
     rand_chamadas := n; stdout := stdout w |}.

Definition set_stdout (w : Mundo) (l : list Saida) : Mundo :=
  {| proximo_id_peca := proximo_id_peca w; rand_fonte := rand_fonte w;
     rand_chamadas := rand_chamadas w; stdout := l |}.

(** The world at process start: the counter holds its initialiser 0, nothing
    was drawn from [rand()] and nothing was printed. *)
Definition mundo_inicial (fonte : N -> N) : Mundo :=
  {| proximo_id_peca := 0; rand_fonte := fonte; rand_chamadas := 0%N;
     stdout := [] |}.

(** ** The monad: state [Mundo], failure = undefined behaviour *)

Definition M (A : Type) : Type := Mundo -> option (A * Mundo).

Global Instance M_ret : MRet M := λ A a w, Some (a, w).

Global Instance M_bind : MBind M := λ A B f m w,
  match m w with
  | Some (a, w') => f a w'
  | None => None
  end.

(** An access that may be out of bounds. *)
Definition definido {A : Type} (o : option A) : M A := λ w,
  match o with
  | Some a => Some (a, w)
  | None => None
  end.

Definition printf (s : Saida) : M unit := λ w,
  Some (tt, set_stdout w (stdout w ++ [s])).

(** [RAND_MAX] of the C library (glibc's value). *)
Definition RAND_MAX : Z := 2147483647.

(** [rand()]: the next value of the source, between 0 and [RAND_MAX]. *)
Definition rand : M Z := λ w,
  Some (Z.of_N (rand_fonte w (rand_chamadas w)) mod (RAND_MAX + 1),
        set_rand_chamadas w (N.succ (rand_chamadas w))).

(** [proximo_id_peca++]: yields the old value, stores the incremented one. *)
Definition proximo_id_peca_pos_incremento : M Z := λ w,
  Some (proximo_id_peca w,
        set_proximo_id_peca w (int_add (proximo_id_peca w) 1)).

(** ** Array accesses *)

(** The valid subscripts of [elementos]. *)
Definition indice (i : Z) : option (fin 5) :=
  match i with
  | 0 => Some 0%fin
  | 1 => Some 1%fin
  | 2 => Some 2%fin
  | 3 => Some 3%fin
  | 4 => Some 4%fin
  | _ => None
  end.

(** [v[i]] as an rvalue. *)
Definition ler (v : vec Peca 5) (i : Z) : option Peca :=
  j ← indice i; Some (v !!! j).

(** [v[i] = p]. *)
Definition escrever (v : vec Peca 5) (i : Z) (p : Peca) : option (vec Peca 5) :=
  j ← indice i; Some (vinsert j p v).

(** Subscripting a local array given as a list (used for [tipos]). *)
Definition ler_lista {A : Type} (l : list A) (i : Z) : option A :=
  if i <? 0 then None else l !! Z.to_nat i.

(** ** The functions of tetris.c *)

(** [void inicializarFila(FilaPecas* fila)]: the array keeps whatever it
    held. *)
Definition inicializarFila (fila : FilaPecas) : FilaPecas :=
  let fila := set_frente fila 0 in
  let fila := set_tras fila (-1) in
  set_tamanho fila 0.

(** [char tipos[] = {'I', 'O', 'T', 'L'};] *)
Definition tipos : list ascii := ["I"; "O"; "T"; "L"]%char.

(** [Peca gerarPeca()] *)
Definition gerarPeca : M Peca :=
  let num_tipos := Z.of_nat (length tipos) in
  r ← rand;
  let indice_aleatorio := int_mod r num_tipos in
  t ← definido (ler_lista tipos indice_aleatorio);
  i ← proximo_id_peca_pos_incremento;
  mret {| tipo := t; id := i |}.

(** The body of the [for] loop of [preencherFilaInicial], run [voltas]
    times. *)
Fixpoint preencher_laco (voltas : nat) (fila : FilaPecas) : M FilaPecas :=
  match voltas with
  | O => mret fila
  | S voltas' =>
      let fila := set_tras fila (int_mod (int_add (tras fila) 1) CAPACIDADE_FILA) in
      p ← gerarPeca;
      v ← definido (escrever (elementos fila) (tras fila) p);
      let fila := set_elementos fila v in
      let fila := set_tamanho fila (int_add (tamanho fila) 1) in
      preencher_laco voltas' fila
  end.

(** [void preencherFilaInicial(FilaPecas* fila, int num_pecas)].  The loop
    [for (int i = 0; i < num_pecas; i++)] runs [num_pecas] times when
    [num_pecas] is positive and not at all otherwise. *)
Definition preencherFilaInicial (fila : FilaPecas) (num_pecas : Z) : M FilaPecas :=
  let num_pecas :=
    if num_pecas >? CAPACIDADE_FILA then CAPACIDADE_FILA else num_pecas in
  preencher_laco (Z.to_nat num_pecas) fila.

(** [int inserirPeca(FilaPecas* fila)] *)
Definition inserirPeca (fila : FilaPecas) : M (Z * FilaPecas) :=
  if tamanho fila =? CAPACIDADE_FILA then
    _ ← printf (MsgFilaCheia CAPACIDADE_FILA);
    mret (0, fila)
  else
    let fila := set_tras fila (int_mod (int_add (tras fila) 1) CAPACIDADE_FILA) in
    nova_peca ← gerarPeca;
    v ← definido (escrever (elementos fila) (tras fila) nova_peca);
    let fila := set_elementos fila v in
    let fila := set_tamanho fila (int_add (tamanho fila) 1) in
    _ ← printf (MsgPecaInserida (tipo nova_peca) (id nova_peca));
    mret (1, fila).

(** [int jogarPeca(FilaPecas* fila)] *)
Definition jogarPeca (fila : FilaPecas) : M (Z * FilaPecas) :=
  if tamanho fila =? 0 then
    _ ← printf MsgFilaVazia;
    let fila := set_tras fila (-1) in
    mret (0, fila)
  else
    peca_removida ← definido (ler (elementos fila) (frente fila));
    let fila := set_frente fila (int_mod (int_add (frente fila) 1) CAPACIDADE_FILA) in
    let fila := set_tamanho fila (int_sub (tamanho fila) 1) in
    _ ← printf (MsgPecaJogada (tipo peca_removida) (id peca_removida));
    mret (1, fila).

(** The [while (count < fila->tamanho)] loop of [exibirFila], with
    [restantes] iterations still to run. *)
Fixpoint exibir_laco (restantes : nat) (fila : FilaPecas) (i count : Z) : M unit :=
  match restantes with
  | O => mret tt
  | S restantes' =>
      p ← definido (ler (elementos fila) i);
      _ ← printf (ItemFila (tipo p) (id p));
      _ ← (if count <? int_sub (tamanho fila) 1 then printf Seta else mret tt);
      exibir_laco restantes' fila (int_mod (int_add i 1) CAPACIDADE_FILA)
                  (int_add count 1)
  end.

(** [void exibirFila(const FilaPecas* fila)].  Starting from [count = 0] the
    loop guard [count < fila->tamanho] holds exactly [tamanho] times. *)
Definition exibirFila (fila : FilaPecas) : M unit :=
  _ ← printf (CabecalhoFila (tamanho fila) CAPACIDADE_FILA);
  if tamanho fila =? 0 then
    printf TextoVazia
  else
    _ ← printf PrefixoFila;
    _ ← exibir_laco (Z.to_nat (tamanho fila)) fila (frente fila) 0;
    _ ← printf NovaLinha;
    printf FimDaFila.

(** One round of the [do ... while] loop of [main] for a numeric option
    typed by the user: the queue is shown, then the [switch] runs. *)
Definition rodada (opcao : Z) (fila : FilaPecas) : M FilaPecas :=
  _ ← exibirFila fila;
  _ ← printf TextoMenu;
  fila ← match opcao with
         | 1 => '(_, fila) ← jogarPeca fila; mret fila
         | 2 => '(_, fila) ← inserirPeca fila; mret fila
         | 0 => _ ← printf MsgSaindo; mret fila
         | _ => _ ← printf MsgOpcaoInvalida; mret fila
         end;
  _ ← (if opcao =? 0 then mret tt else printf MsgPressioneEnter);
  mret fila.

(** The rounds played for a list of options; the loop ends at option 0. *)
Fixpoint rodadas (opcoes : list Z) (fila : FilaPecas) : M FilaPecas :=
  match opcoes with
  | [] => mret fila
  | opcao :: resto =>
      fila ← rodada opcao fila;
      if opcao =? 0 then mret fila else rodadas resto fila
  end.

(** [main] up to the options read so far: [fila] is the uninitialised local
    variable, [opcoes] the numbers typed at the prompt.  The seed chosen by
    [srand(time(NULL))] is the [rand_fonte] of the world the run starts in;
    an entry that [scanf] cannot read as a number is not modelled. *)
Definition main (fila : FilaPecas) (opcoes : list Z) : M FilaPecas :=
  let fila := inicializarFila fila in
  fila ← preencherFilaInicial fila CAPACIDADE_FILA;
  rodadas opcoes fila.

(** ** Vocabulary of the properties *)

(** A call a client of the queue can make. *)
Inductive Chamada : Type := ChInserir | ChJogar.

Definition chamar (c : Chamada) (fila : FilaPecas) : M (Z * FilaPecas) :=
  match c with
  | ChInserir => inserirPeca fila
  | ChJogar => jogarPeca fila
  end.

(** A sequence of calls, each on the queue left by the previous one. *)
Fixpoint executar (cs : list Chamada) (fila : FilaPecas) : M FilaPecas :=
  match cs with
  | [] => mret fila
  | c :: cs' => '(_, fila) ← chamar c fila; executar cs' fila
  end.

(** The same call made [n] times in a row; the return codes are collected in
    call order. *)
Fixpoint repetir (n : nat) (c : Chamada) (fila : FilaPecas) : M (list Z * FilaPecas) :=
  match n with
  | O => mret ([], fila)
  | S n' =>
      '(r, fila) ← chamar c fila;
      '(rs, fila) ← repetir n' c fila;
      mret (r :: rs, fila)
  end.

(** The single-item enqueue path invoked [min(n, capacity)] times: what the
    specification says the bulk fill amounts to. *)
Definition enfileirar_min_vezes (fila : FilaPecas) (n : Z) : M (list Z * FilaPecas) :=
  repetir (Z.to_nat (Z.min n CAPACIDADE_FILA)) ChInserir fila.

(** The ids announced by successful insertions, in the order printed. *)
Definition ids_inseridos (l : list Saida) : list Z :=
  omap (λ s, match s with MsgPecaInserida _ i => Some i | _ => None end) l.

(** The ids announced by successful removals, in the order printed. *)
Definition ids_jogados (l : list Saida) : list Z :=
  omap (λ s, match s with MsgPecaJogada _ i => Some i | _ => None end) l.

(** The pieces listed by [exibirFila], in the order printed. *)
Definition pecas_exibidas (l : list Saida) : list Peca :=
  omap (λ s, match s with
             | ItemFila t i => Some {| tipo := t; id := i |}
             | _ => None
             end) l.

(** The piece the next call of [gerarPeca] builds and the world it leaves. *)
Definition sorteio (w : Mundo) : Z :=
  int_mod (Z.of_N (rand_fonte w (rand_chamadas w)) mod (RAND_MAX + 1))
          (Z.of_nat (length tipos)).

Definition peca_gerada (w : Mundo) : Peca :=
  {| tipo := default "I"%char (ler_lista tipos (sorteio w));
     id := proximo_id_peca w |}.

Definition mundo_apos_gerar (w : Mundo) : Mundo :=
  set_proximo_id_peca (set_rand_chamadas w (N.succ (rand_chamadas w)))
                      (int_add (proximo_id_peca w) 1).



(** Slot [i] of the array, for a subscript known to be valid. *)
Definition slot (v : vec Peca 5) (i : Z) : Peca :=
  default (v !!! 0%fin) (ler v i).

(** The slots [exibirFila] walks through: [n] of them from subscript [i]
    on, wrapping at the end of the array. *)
Fixpoint percurso (n : nat) (v : vec Peca 5) (i : Z) : list Peca :=
  match n with
  | O => []
  | S n' => slot v i :: percurso n' v ((i + 1) mod CAPACIDADE_FILA)
  end.

(** Ranges of the three integer fields. *)
Definition frente_valida (fila : FilaPecas) : Prop :=
  0 <= frente fila < CAPACIDADE_FILA.

Definition tras_valido (fila : FilaPecas) : Prop :=
  -1 <= tras fila < CAPACIDADE_FILA.

Definition tamanho_valido (fila : FilaPecas) : Prop :=
  0 <= tamanho fila <= CAPACIDADE_FILA.

Definition fila_valida (fila : FilaPecas) : Prop :=
  frente_valida fila /\ tras_valido fila /\ tamanho_valido fila.

(** The queue holds exactly the pieces [l], oldest first: they sit in the
    circular run of slots that starts at [frente], and the next insertion
    writes right after that run. *)
Definition representa (fila : FilaPecas) (l : list Peca) : Prop :=
  fila_valida fila /\
  tamanho fila = Z.of_nat (length l) /\
  (tras fila + 1) mod CAPACIDADE_FILA
    = (frente fila + tamanho fila) mod CAPACIDADE_FILA /\
  percurso (length l) (elementos fila) (frente fila) = l.

(** Two worlds that differ at most in what was printed. *)
Definition mesmo_salvo_stdout (w1 w2 : Mundo) : Prop :=
  proximo_id_peca w1 = proximo_id_peca w2 /\
  rand_fonte w1 = rand_fonte w2 /\
  rand_chamadas w1 = rand_chamadas w2.

(** The pieces built by [n] successive calls of [gerarPeca] from world [w],
    and the world after them (what was printed aside). *)
Fixpoint pecas_geradas (n : nat) (w : Mundo) : list Peca :=
  match n with
  | O => []
  | S n' => peca_gerada w :: pecas_geradas n' (mundo_apos_gerar w)
  end.

Fixpoint apos_gerar (n : nat) (w : Mundo) : Mundo :=
  match n with
  | O => w
  | S n' => apos_gerar n' (mundo_apos_gerar w)
  end.

(** The announcements printed by [inserirPeca] and [jogarPeca]. *)
Definition anuncio_inserida (p : Peca) : Saida := MsgPecaInserida (tipo p) (id p).
Definition anuncio_jogada (p : Peca) : Saida := MsgPecaJogada (tipo p) (id p).

(** The ids a call of [exibirFila] lists, in the order printed. *)
Definition ids_exibidos (fila : FilaPecas) (w : Mundo) : option (list Z) :=
  match exibirFila fila (set_stdout w []) with
  | Some (_, w') => Some (id <$> pecas_exibidas (stdout w'))
  | None => None
  end.

(** A concrete start of the process: some leftover bytes in the local
    variable [fila] of [main], and a random source. *)
Definition fila_nao_inicializada : FilaPecas :=
  {| elementos := vreplicate 5 {| tipo := "?"%char; id := -7 |};
     frente := 99; tras := 98; tamanho := 97 |}.

Definition fonte_exemplo : N -> N := λ n, (n * 7 + 3)%N.

(** The queue right after the start-up fill, and the queue after one
    removal, one insertion and five more removals. *)
Definition fila_cheia_exemplo : FilaPecas :=
  {| elementos := [# {| tipo := "I"%char; id := 0 |};
                     {| tipo := "O"%char; id := 1 |};
                     {| tipo := "T"%char; id := 2 |};
                     {| tipo := "L"%char; id := 3 |};
                     {| tipo := "I"%char; id := 4 |}];
     frente := 0; tras := 4; tamanho := 5 |}.

Definition fila_vazia_exemplo : FilaPecas :=
  {| elementos := [# {| tipo := "O"%char; id := 5 |};
                     {| tipo := "O"%char; id := 1 |};
                     {| tipo := "T"%char; id := 2 |};
                     {| tipo := "L"%char; id := 3 |};
                     {| tipo := "I"%char; id := 4 |}];
     frente := 1; tras := 0; tamanho := 0 |}.

Definition mundo_exemplo : Mundo := mundo_inicial fonte_exemplo.

(** The queue a successful insertion leaves, [v] being the array after the
    write. *)
Definition fila_apos_inserir (fila : FilaPecas) (v : vec Peca 5) : FilaPecas :=
  {| elementos := v; frente := frente fila;
     tras := (tras fila + 1) mod CAPACIDADE_FILA;
     tamanho := int_add (tamanho fila) 1 |}.

(** The queue a successful removal leaves. *)
Definition fila_apos_jogar (fila : FilaPecas) : FilaPecas :=
  {| elementos := elementos fila;
     frente := (frente fila + 1) mod CAPACIDADE_FILA;
     tras := tras fila;
     tamanho := int_sub (tamanho fila) 1 |}.

(** Unfolding of the monad operations. *)
Ltac desdobrar := unfold mbind, M_bind, mret, M_ret, printf, definido.

(** ** Vocabulary of the properties of whole sessions *)

(** The pieces announced by successful insertions and by successful
    removals, in the order printed. *)
Definition pecas_inseridas (l : list Saida) : list Peca :=
  omap (λ s, match s with
             | MsgPecaInserida t i => Some {| tipo := t; id := i |}
             | _ => None
             end) l.

Definition pecas_jogadas (l : list Saida) : list Peca :=
  omap (λ s, match s with
             | MsgPecaJogada t i => Some {| tipo := t; id := i |}
             | _ => None
             end) l.

(** A sequence of calls that never asks for a removal while the queue is
    empty; [n] is the number of pieces the queue holds before the calls. *)
Fixpoint sem_jogar_em_vazio (cs : list Chamada) (n : nat) : bool :=
  match cs with
  | [] => true
  | ChInserir :: cs' => sem_jogar_em_vazio cs' (if (n <? 5)%nat then S n else n)
  | ChJogar :: cs' =>
      match n with
      | O => false
      | S n' => sem_jogar_em_vazio cs' n'
      end
  end.

(** The pieces of a list as [exibirFila] writes them: an arrow between two
    neighbours, none after the last. *)
Fixpoint itens_com_setas (l : list Peca) : list Saida :=
  match l with
  | [] => []
  | p :: l' =>
      ItemFila (tipo p) (id p)
      :: match l' with
         | [] => []
         | _ :: _ => Seta :: itens_com_setas l'
         end
  end.

(** The text of the display of a queue that holds [l]. *)
Definition texto_da_fila (l : list Peca) : list Saida :=
  CabecalhoFila (Z.of_nat (length l)) CAPACIDADE_FILA
  :: match l with
     | [] => [TextoVazia]
     | _ :: _ => PrefixoFila :: itens_com_setas l ++ [NovaLinha; FimDaFila]
     end.

(** The messages of [inserirPeca] and [jogarPeca], as opposed to the display
    and the menu. *)
Definition e_anuncio (s : Saida) : bool :=
  match s with
  | MsgFilaCheia _ | MsgPecaInserida _ _ | MsgFilaVazia | MsgPecaJogada _ _ => true
  | _ => false
  end.

Definition anuncios (l : list Saida) : list Saida :=
  omap (λ s, if e_anuncio s then Some s else None) l.

(** Two worlds with the same counter and random source that have seen the
    same messages of [inserirPeca] and [jogarPeca]. *)
Definition mesmos_anuncios (w1 w2 : Mundo) : Prop :=
  mesmo_salvo_stdout w1 w2 /\ anuncios (stdout w1) = anuncios (stdout w2).

(** The queue calls a session makes: option 1 removes, option 2 inserts, any
    other number makes no call, and nothing is read after option 0. *)
Fixpoint chamadas_da_sessao (opcoes : list Z) : list Chamada :=
  match opcoes with
  | [] => []
  | opcao :: resto =>
      if opcao =? 0 then []
      else match opcao with
           | 1 => ChJogar :: chamadas_da_sessao resto
           | 2 => ChInserir :: chamadas_da_sessao resto
           | _ => chamadas_da_sessao resto
           end
  end.

(** * Properties *)

(** ** Integers and array accesses *)

Lemma int_wrap_id (z : Z) : INT_MIN <= z <= INT_MAX -> int_wrap z = z.
Proof.
  unfold INT_MIN, INT_MAX, int_wrap. intros Hz.
  rewrite Z.mod_small; lia.
Qed.

Lemma int_wrap_range (z : Z) : INT_MIN <= int_wrap z <= INT_MAX.
Proof.
  unfold INT_MIN, INT_MAX, int_wrap.
  pose proof (Z.mod_pos_bound (z + 2147483648) 4294967296). lia.
Qed.

Lemma indice_Some (i : Z) :
  0 <= i < CAPACIDADE_FILA -> ∃ j, indice i = Some j.
Proof.
  unfold CAPACIDADE_FILA. intros Hi.
  assert (i = 0 ∨ i = 1 ∨ i = 2 ∨ i = 3 ∨ i = 4) as Hc by lia.
  destruct Hc as [-> | [-> | [-> | [-> | ->]]]]; simpl; eauto.
Qed.

Lemma indice_None (i : Z) :
  ¬ (0 <= i < CAPACIDADE_FILA) -> indice i = None.
Proof.
  unfold CAPACIDADE_FILA. intros Hi.
  destruct i as [| p | p]; try reflexivity; try lia.
  do 3 (destruct p as [p | p |]; try reflexivity; try lia).
Qed.

Lemma indice_inj (i1 i2 : Z) (j : fin 5) :
  indice i1 = Some j -> indice i2 = Some j -> i1 = i2.
Proof.
  intros H1 H2.
  destruct (decide (0 <= i1 < CAPACIDADE_FILA)) as [Hr1 | Hr1];
    [| rewrite indice_None in H1; [discriminate | exact Hr1]].
  destruct (decide (0 <= i2 < CAPACIDADE_FILA)) as [Hr2 | Hr2];
    [| rewrite indice_None in H2; [discriminate | exact Hr2]].
  unfold CAPACIDADE_FILA in *.
  assert (i1 = 0 ∨ i1 = 1 ∨ i1 = 2 ∨ i1 = 3 ∨ i1 = 4) as Hc1 by lia.
  assert (i2 = 0 ∨ i2 = 1 ∨ i2 = 2 ∨ i2 = 3 ∨ i2 = 4) as Hc2 by lia.
  destruct Hc1 as [-> | [-> | [-> | [-> | ->]]]];
    destruct Hc2 as [-> | [-> | [-> | [-> | ->]]]];
    simpl in *; congruence.
Qed.

(** A write inside the array is defined and is seen by a later read of the
    same slot. *)
Lemma escrever_ler_eq (v : vec Peca 5) (i : Z) (p : Peca) :
  0 <= i < CAPACIDADE_FILA ->
  ∃ v', escrever v i p = Some v' ∧ slot v' i = p.
Proof.
  intros Hi. destruct (indice_Some i Hi) as [j Hj].
  exists (vinsert j p v). unfold escrever, slot, ler. rewrite Hj. simpl.
  split; [reflexivity | apply vlookup_insert].
Qed.

(** A write leaves every other slot as it was. *)
Lemma escrever_ler_ne (v v' : vec Peca 5) (i k : Z) (p : Peca) :
  escrever v i p = Some v' ->
  0 <= k < CAPACIDADE_FILA -> i ≠ k ->
  slot v' k = slot v k.
Proof.
  unfold escrever. intros Hw Hk Hne.
  destruct (indice i) as [j |] eqn:Hj; [| discriminate].
  simpl in Hw. injection Hw as <-.
  destruct (indice_Some k Hk) as [j' Hj'].
  unfold slot, ler. rewrite Hj'. simpl.
  apply vlookup_insert_ne. intros ->. apply Hne.
  eapply indice_inj; eassumption.
Qed.

Lemma ler_slot (v : vec Peca 5) (i : Z) :
  0 <= i < CAPACIDADE_FILA -> ler v i = Some (slot v i).
Proof.
  intros Hi. destruct (indice_Some i Hi) as [j Hj].
  unfold slot, ler. rewrite Hj. reflexivity.
Qed.

(** ** The piece factory *)

Lemma sorteio_range (w : Mundo) : 0 <= sorteio w < 4.
Proof.
  unfold sorteio, int_mod, RAND_MAX. simpl length.
  apply Z.rem_bound_pos; [| lia].
  apply Z.mod_pos_bound. lia.
Qed.

(** [gerarPeca] always returns: the piece carries the current value of the
    counter and one of the four labels. *)
Lemma gerarPeca_eq (w : Mundo) :
  gerarPeca w = Some (peca_gerada w, mundo_apos_gerar w).
Proof.
  pose proof (sorteio_range w) as Hs.
  unfold gerarPeca, peca_gerada, mundo_apos_gerar.
  unfold mbind, M_bind, mret, M_ret, rand. fold (sorteio w).
  assert (sorteio w = 0 ∨ sorteio w = 1 ∨ sorteio w = 2 ∨ sorteio w = 3)
    as Hc by lia.
  destruct Hc as [-> | [-> | [-> | ->]]]; reflexivity.
Qed.

Lemma tipo_peca_gerada (w : Mundo) : tipo (peca_gerada w) ∈ tipos.
Proof.
  pose proof (sorteio_range w) as Hs. unfold peca_gerada. simpl.
  assert (sorteio w = 0 ∨ sorteio w = 1 ∨ sorteio w = 2 ∨ sorteio w = 3)
    as Hc by lia.
  unfold tipos.
  destruct Hc as [-> | [-> | [-> | ->]]]; simpl;
    repeat first [apply list_elem_of_here | apply list_elem_of_further].
Qed.

(** ** One call of each queue operation *)

Lemma avanco_circular (i : Z) :
  -1 <= i < INT_MAX ->
  int_mod (int_add i 1) CAPACIDADE_FILA = (i + 1) mod CAPACIDADE_FILA.
Proof.
  unfold CAPACIDADE_FILA, int_mod, int_add. intros Hi.
  rewrite int_wrap_id by (unfold INT_MIN, INT_MAX in *; lia).
  apply Z.rem_mod_nonneg; lia.
Qed.

Lemma tras_valido_int (fila : FilaPecas) :
  tras_valido fila -> -1 <= tras fila < INT_MAX.
Proof. unfold tras_valido, CAPACIDADE_FILA, INT_MAX. lia. Qed.

Lemma avanco_circular_range (i : Z) :
  0 <= (i + 1) mod CAPACIDADE_FILA < CAPACIDADE_FILA.
Proof. apply Z.mod_pos_bound. reflexivity. Qed.

Lemma inserirPeca_cheia (fila : FilaPecas) (w : Mundo) :
  tamanho fila = CAPACIDADE_FILA ->
  inserirPeca fila w
  = Some ((0, fila), set_stdout w (stdout w ++ [MsgFilaCheia CAPACIDADE_FILA])).
Proof.
  intros Hc. unfold inserirPeca. rewrite Hc. reflexivity.
Qed.

Lemma inserirPeca_livre (fila : FilaPecas) (w : Mundo) :
  tamanho fila ≠ CAPACIDADE_FILA -> tras_valido fila ->
  ∃ v, escrever (elementos fila) ((tras fila + 1) mod CAPACIDADE_FILA)
                (peca_gerada w) = Some v ∧
       slot v ((tras fila + 1) mod CAPACIDADE_FILA) = peca_gerada w ∧
       inserirPeca fila w
       = Some ((1, fila_apos_inserir fila v),
               set_stdout (mundo_apos_gerar w)
                 (stdout w ++ [MsgPecaInserida (tipo (peca_gerada w))
                                               (id (peca_gerada w))])).
Proof.
  intros Hc Ht.
  destruct (escrever_ler_eq (elementos fila) _ (peca_gerada w)
              (avanco_circular_range (tras fila))) as (v & Hv & Hs).
  exists v. split; [exact Hv |]. split; [exact Hs |].
  unfold inserirPeca. apply Z.eqb_neq in Hc. rewrite Hc.
  desdobrar. rewrite gerarPeca_eq. simpl.
  rewrite (avanco_circular _ (tras_valido_int _ Ht)), Hv. reflexivity.
Qed.

Lemma jogarPeca_vazia (fila : FilaPecas) (w : Mundo) :
  tamanho fila = 0 ->
  jogarPeca fila w
  = Some ((0, set_tras fila (-1)), set_stdout w (stdout w ++ [MsgFilaVazia])).
Proof.
  intros Hc. unfold jogarPeca. rewrite Hc. reflexivity.
Qed.

Lemma jogarPeca_ocupada (fila : FilaPecas) (w : Mundo) :
  tamanho fila ≠ 0 -> frente_valida fila ->
  jogarPeca fila w
  = Some ((1, fila_apos_jogar fila),
          set_stdout w
            (stdout w ++ [MsgPecaJogada (tipo (slot (elementos fila) (frente fila)))
                                        (id (slot (elementos fila) (frente fila)))])).
Proof.
  intros Hc Hf. unfold jogarPeca. apply Z.eqb_neq in Hc. rewrite Hc.
  desdobrar. rewrite (ler_slot _ _ Hf). simpl.
  rewrite avanco_circular
    by (unfold frente_valida, CAPACIDADE_FILA, INT_MAX in *; lia).
  reflexivity.
Qed.

(** One turn of the loop of [preencherFilaInicial]. *)
Lemma preencher_laco_S (voltas : nat) (fila : FilaPecas) (w : Mundo) :
  -1 <= tras fila < INT_MAX ->
  ∃ v, escrever (elementos fila) ((tras fila + 1) mod CAPACIDADE_FILA)
                (peca_gerada w) = Some v ∧
       slot v ((tras fila + 1) mod CAPACIDADE_FILA) = peca_gerada w ∧
       preencher_laco (S voltas) fila w
       = preencher_laco voltas (fila_apos_inserir fila v) (mundo_apos_gerar w).
Proof.
  intros Ht.
  destruct (escrever_ler_eq (elementos fila) _ (peca_gerada w)
              (avanco_circular_range (tras fila))) as (v & Hv & Hs).
  exists v. split; [exact Hv |]. split; [exact Hs |].
  simpl. desdobrar. rewrite gerarPeca_eq. simpl.
  rewrite (avanco_circular _ Ht), Hv. reflexivity.
Qed.

Lemma tras_valido_apos_inserir (fila : FilaPecas) (v : vec Peca 5) :
  tras_valido (fila_apos_inserir fila v).
Proof.
  unfold tras_valido. simpl.
  pose proof (avanco_circular_range (tras fila)). lia.
Qed.

Lemma frente_valida_apos_jogar (fila : FilaPecas) :
  frente_valida (fila_apos_jogar fila).
Proof.
  unfold frente_valida. simpl. apply avanco_circular_range.
Qed.

(** ** Failing calls *)

Lemma set_stdout_app (w : Mundo) (l1 l2 : list Saida) :
  set_stdout (set_stdout w (stdout w ++ l1))
             (stdout (set_stdout w (stdout w ++ l1)) ++ l2)
  = set_stdout w (stdout w ++ l1 ++ l2).
Proof. unfold set_stdout. simpl. rewrite app_assoc. reflexivity. Qed.

Lemma set_stdout_nil (w : Mundo) : set_stdout w (stdout w ++ []) = w.
Proof. destruct w. unfold set_stdout. simpl. rewrite app_nil_r. reflexivity. Qed.

Lemma repetir_S (n : nat) (c : Chamada) (fila fila' : FilaPecas)
    (r : Z) (w w' : Mundo) :
  chamar c fila w = Some ((r, fila'), w') ->
  repetir (S n) c fila w
  = match repetir n c fila' w' with
    | Some ((rs, fila''), w'') => Some ((r :: rs, fila''), w'')
    | None => None
    end.
Proof.
  intros Hc. simpl. desdobrar. rewrite Hc.
  destruct (repetir n c fila' w') as [[[rs f] w''] |]; reflexivity.
Qed.

(** C2. Enqueue on a full queue fails atomically and idempotently: whenever
    [tamanho] equals the capacity, any number [n] of successive calls of
    [inserirPeca] all return 0, and the queue they leave is the queue they
    were given, field for field; the only trace is the "queue full" message
    printed once per attempt. *)
Theorem inserirPeca_cheia_idempotente (fila : FilaPecas) (w : Mundo) (n : nat) :
  tamanho fila = CAPACIDADE_FILA ->
  repetir n ChInserir fila w
  = Some ((replicate n 0, fila),
          set_stdout w (stdout w ++ replicate n (MsgFilaCheia CAPACIDADE_FILA))).
Proof.
  intros Hc. revert w. induction n as [| n IH]; intros w.
  - simpl. unfold mret, M_ret. rewrite set_stdout_nil. reflexivity.
  - rewrite (repetir_S n ChInserir fila fila 0 w _ (inserirPeca_cheia fila w Hc)).
    rewrite IH, set_stdout_app. reflexivity.
Qed.

(** C3. Dequeue on an empty queue: whenever [tamanho] is 0, any number
    [n >= 1] of successive calls of [jogarPeca] all return 0 and leave the
    queue they were given with [tras] set to -1 and [elementos], [frente]
    and [tamanho] untouched; the "queue empty" message is printed once per
    attempt. *)
Theorem jogarPeca_vazia_idempotente (fila : FilaPecas) (w : Mundo) (n : nat) :
  tamanho fila = 0 ->
  repetir (S n) ChJogar fila w
  = Some ((replicate (S n) 0,
           {| elementos := elementos fila; frente := frente fila;
              tras := -1; tamanho := tamanho fila |}),
          set_stdout w (stdout w ++ replicate (S n) MsgFilaVazia)).
Proof.
  intros Hc. revert fila w Hc. induction n as [| n IH]; intros fila w Hc.
  - rewrite (repetir_S 0 ChJogar fila _ 0 w _ (jogarPeca_vazia fila w Hc)).
    reflexivity.
  - rewrite (repetir_S (S n) ChJogar fila _ 0 w _ (jogarPeca_vazia fila w Hc)).
    rewrite IH by exact Hc. rewrite set_stdout_app. reflexivity.
Qed.

(** C9. A failed enqueue consumes no id: on a full queue [inserirPeca]
    returns 0 without touching the id counter or the random source, and the
    piece generated next is the one that would have been generated had the
    failed attempt never happened. *)
Theorem inserirPeca_cheia_nao_consome_id (fila : FilaPecas) (w : Mundo) :
  tamanho fila = CAPACIDADE_FILA ->
  ∃ w', inserirPeca fila w = Some ((0, fila), w') ∧
        proximo_id_peca w' = proximo_id_peca w ∧
        rand_chamadas w' = rand_chamadas w ∧
        fst <$> gerarPeca w' = fst <$> gerarPeca w ∧
        id <$> (fst <$> gerarPeca w') = Some (proximo_id_peca w).
Proof.
  intros Hc. eexists. split; [apply (inserirPeca_cheia fila w Hc) |].
  rewrite !gerarPeca_eq. simpl. auto.
Qed.

(** ** The bulk fill *)

Lemma limite_preencher (n : Z) :
  (if n >? CAPACIDADE_FILA then CAPACIDADE_FILA else n) = Z.min n CAPACIDADE_FILA.
Proof.
  unfold CAPACIDADE_FILA. destruct (Z.gtb_spec n 5); lia.
Qed.

Lemma mesmo_salvo_stdout_refl (w : Mundo) : mesmo_salvo_stdout w w.
Proof. unfold mesmo_salvo_stdout. auto. Qed.

Lemma mesmo_salvo_stdout_printf (w1 w2 : Mundo) (l : list Saida) :
  mesmo_salvo_stdout w1 w2 -> mesmo_salvo_stdout w1 (set_stdout w2 l).
Proof. unfold mesmo_salvo_stdout. simpl. auto. Qed.

Lemma peca_gerada_salvo_stdout (w1 w2 : Mundo) :
  mesmo_salvo_stdout w1 w2 -> peca_gerada w1 = peca_gerada w2.
Proof.
  intros (Hi & Hf & Hc). unfold peca_gerada, sorteio.
  rewrite Hi, Hf, Hc. reflexivity.
Qed.

Lemma mundo_apos_gerar_salvo_stdout (w1 w2 : Mundo) :
  mesmo_salvo_stdout w1 w2 ->
  mesmo_salvo_stdout (mundo_apos_gerar w1) (mundo_apos_gerar w2).
Proof.
  intros (Hi & Hf & Hc). unfold mesmo_salvo_stdout, mundo_apos_gerar. simpl.
  rewrite Hi, Hf, Hc. auto.
Qed.

(** The loop of the bulk fill, whatever the occupancy it starts from: every
    turn inserts, nothing is printed, and [tamanho] grows by one per turn as
    long as the sum stays an [int]. *)
Lemma preencher_laco_total (voltas : nat) (fila : FilaPecas) (w : Mundo) :
  -1 <= tras fila < INT_MAX ->
  INT_MIN <= tamanho fila -> tamanho fila + Z.of_nat voltas <= INT_MAX ->
  ∃ fila' w',
    preencher_laco voltas fila w = Some (fila', w') ∧
    tamanho fila' = tamanho fila + Z.of_nat voltas ∧
    frente fila' = frente fila ∧
    (tras_valido fila -> tras_valido fila') ∧
    rand_chamadas w' = (rand_chamadas w + N.of_nat voltas)%N ∧
    rand_fonte w' = rand_fonte w ∧
    stdout w' = stdout w.
Proof.
  revert fila w. induction voltas as [| k IH]; intros fila w Ht Hlo Hhi.
  - exists fila, w. simpl. unfold mret, M_ret.
    split; [reflexivity |]. split; [lia |]. split; [reflexivity |].
    split; [exact (λ H, H) |]. split; [lia |]. split; reflexivity.
  - destruct (preencher_laco_S k fila w Ht) as (v & _ & _ & ->).
    destruct (IH (fila_apos_inserir fila v) (mundo_apos_gerar w))
      as (fila' & w' & Hrun & Htam & Hfr & Htr & Hrc & Hrf & Hout).
    + apply tras_valido_int, tras_valido_apos_inserir.
    + simpl. apply int_wrap_range.
    + simpl. unfold int_add. rewrite int_wrap_id; lia.
    + exists fila', w'. split; [exact Hrun |].
      simpl in Htam. unfold int_add in Htam. rewrite int_wrap_id in Htam by lia.
      simpl in Hfr, Hrc, Hrf, Hout.
      split; [lia |]. split; [exact Hfr |].
      split; [intros _; apply Htr, tras_valido_apos_inserir |].
      split; [lia |]. split; assumption.
Qed.

(** What the loop of the bulk fill does in [voltas <= 5] turns, whatever the
    occupancy: each turn moves [tras] one slot on, stores the next generated
    piece there and counts it.  The [voltas] slots after the old [tras] end
    up holding the generated pieces in generation order, every other slot is
    as before, and nothing is printed. *)
Lemma preencher_laco_insercoes (voltas : nat) (fila : FilaPecas) (w : Mundo) :
  (voltas <= 5)%nat ->
  -1 <= tras fila < INT_MAX ->
  INT_MIN <= tamanho fila -> tamanho fila + Z.of_nat voltas <= INT_MAX ->
  ∃ fila',
    preencher_laco voltas fila w = Some (fila', apos_gerar voltas w) ∧
    tamanho fila' = tamanho fila + Z.of_nat voltas ∧
    frente fila' = frente fila ∧
    tras fila' = match voltas with
                 | O => tras fila
                 | S _ => (tras fila + Z.of_nat voltas) mod CAPACIDADE_FILA
                 end ∧
    percurso voltas (elementos fila') ((tras fila + 1) mod CAPACIDADE_FILA)
    = pecas_geradas voltas w ∧
    (∀ i : Z,
       0 <= i < CAPACIDADE_FILA ->
       (∀ j : nat, (j < voltas)%nat ->
                   (tras fila + 1 + Z.of_nat j) mod CAPACIDADE_FILA ≠ i) ->
       slot (elementos fila') i = slot (elementos fila) i).
Proof.
  revert fila w. induction voltas as [| k IH]; intros fila w Hk Ht Hlo Hhi.
  - exists fila. simpl. unfold mret, M_ret.
    split; [reflexivity |]. split; [lia |]. auto.
  - destruct (preencher_laco_S k fila w Ht) as (v & Hv & Hslot & ->).
    set (t1 := (tras fila + 1) mod CAPACIDADE_FILA) in *.
    assert (0 <= t1 < CAPACIDADE_FILA) as Ht1 by apply avanco_circular_range.
    destruct (IH (fila_apos_inserir fila v) (mundo_apos_gerar w))
      as (fila' & Hrun & Htam & Hfr & Htr & Hper & Hframe).
    + lia.
    + apply tras_valido_int, tras_valido_apos_inserir.
    + simpl. apply int_wrap_range.
    + simpl. unfold int_add. rewrite int_wrap_id; lia.
    + simpl tamanho in Htam. unfold int_add in Htam.
      rewrite int_wrap_id in Htam by lia.
      simpl frente in Hfr. simpl tras in Htr, Hper, Hframe. fold t1 in Htr, Hper, Hframe.
      simpl elementos in Hframe.
      assert (slot (elementos fila') t1 = peca_gerada w) as Hnew.
      { rewrite (Hframe t1 Ht1); [exact Hslot |].
        intros j Hj. unfold CAPACIDADE_FILA in *.
        rewrite <- (Z.mod_small t1 5) at 2 by lia.
        intros Heq. revert Heq. Z.div_mod_to_equations. lia. }
      exists fila'. split; [exact Hrun |]. split; [lia |]. split; [exact Hfr |].
      split; [| split].
      * rewrite Htr. destruct k as [| k'].
        -- unfold t1. reflexivity.
        -- unfold t1. rewrite Zplus_mod_idemp_l. f_equal. lia.
      * cbn [percurso pecas_geradas]. rewrite Hnew, Hper. reflexivity.
      * intros i Hi Hout. rewrite (Hframe i Hi).
        -- apply (escrever_ler_ne _ _ _ _ _ Hv Hi).
           specialize (Hout 0%nat ltac:(lia)). rewrite Z.add_0_r in Hout.
           exact Hout.
        -- intros j Hj. specialize (Hout (S j) ltac:(lia)).
           replace (t1 + 1 + Z.of_nat j) with (t1 + (1 + Z.of_nat j)) by lia.
           unfold t1. rewrite Zplus_mod_idemp_l.
           replace (tras fila + 1 + (1 + Z.of_nat j))
             with (tras fila + 1 + Z.of_nat (S j)) by lia.
           exact Hout.
Qed.

(** C10 (as amended). The bulk fill ignores the current occupancy: from any
    queue with count [c] and for any [n >= 0], [preencherFilaInicial]
    performs exactly [m = min(n, capacity)] insertions without looking at
    [tamanho].  Each insertion moves [tras] one slot on, stores a freshly
    generated piece there and counts it: the call leaves [tras] at
    [(tras + m) mod 5] (unchanged when [m = 0]), the [m] slots after the old
    [tras] hold the [m] generated pieces in generation order, whatever they
    held before, every other slot and [frente] are untouched, [gerarPeca]
    ran [m] times, nothing is printed, and [tamanho = c + m], which is
    above the capacity whenever that sum is.  The queue is any queue on
    which the additions stay within [int] and the first subscript
    [(tras + 1) % 5] is not negative: [tras] from -1 up and [c] at least
    [CAPACIDADE_FILA] below [INT_MAX]. *)
Theorem preencherFilaInicial_ignora_ocupacao (fila : FilaPecas) (n : Z) (w : Mundo) :
  0 <= n -> -1 <= tras fila < INT_MAX ->
  INT_MIN <= tamanho fila <= INT_MAX - CAPACIDADE_FILA ->
  let m := Z.min n CAPACIDADE_FILA in
  ∃ fila' w',
    preencherFilaInicial fila n w = Some (fila', w') ∧
    tamanho fila' = tamanho fila + m ∧
    rand_chamadas w' = (rand_chamadas w + Z.to_N m)%N ∧
    (tamanho fila + m > CAPACIDADE_FILA -> tamanho fila' > CAPACIDADE_FILA) ∧
    w' = apos_gerar (Z.to_nat m) w ∧
    stdout w' = stdout w ∧
    frente fila' = frente fila ∧
    tras fila' = (if m =? 0 then tras fila
                  else (tras fila + m) mod CAPACIDADE_FILA) ∧
    percurso (Z.to_nat m) (elementos fila')
             ((tras fila + 1) mod CAPACIDADE_FILA)
    = pecas_geradas (Z.to_nat m) w ∧
    (∀ i : Z,
       0 <= i < CAPACIDADE_FILA ->
       (∀ j : Z, 0 <= j < m -> (tras fila + 1 + j) mod CAPACIDADE_FILA ≠ i) ->
       slot (elementos fila') i = slot (elementos fila) i).
Proof.
  intros Hn Ht Hc m.
  assert (0 <= m <= 5) as Hm by (unfold m, CAPACIDADE_FILA; lia).
  unfold preencherFilaInicial. rewrite limite_preencher. fold m.
  destruct (preencher_laco_total (Z.to_nat m) fila w Ht)
    as (fila1 & w1 & Hrun1 & _ & _ & _ & Hrc & _ & Hout);
    [lia | unfold CAPACIDADE_FILA in *; lia |].
  destruct (preencher_laco_insercoes (Z.to_nat m) fila w)
    as (fila' & Hrun & Htam & Hfr & Htr & Hper & Hframe);
    [lia | exact Ht | lia | unfold CAPACIDADE_FILA in *; lia |].
  rewrite Hrun in Hrun1. injection Hrun1 as <- <-.
  rewrite Z2Nat.id in Htam by lia.
  exists fila', (apos_gerar (Z.to_nat m) w).
  split; [exact Hrun |]. split; [exact Htam |].
  split; [rewrite Hrc; lia |]. split; [lia |].
  split; [reflexivity |]. split; [exact Hout |]. split; [exact Hfr |].
  split; [| split; [exact Hper |]].
  - rewrite Htr. destruct (Z.eqb_spec m 0) as [H0 | H0].
    + rewrite H0. reflexivity.
    + destruct (Z.to_nat m) as [| k] eqn:Hk; [lia |].
      rewrite <- Hk, Z2Nat.id by lia. reflexivity.
  - intros i Hi Hfora. apply (Hframe i Hi).
    intros j Hj. apply Hfora. lia.
Qed.

(** The formula of the count fails below zero: a fill of -3 on a queue that
    holds 5 leaves the count at 5, where [c + min(n, capacity)] is 2. *)
Lemma preencherFilaInicial_negativo_nao_subtrai :
  preencherFilaInicial fila_cheia_exemplo (-3) mundo_exemplo
  = Some (fila_cheia_exemplo, mundo_exemplo) ∧
  tamanho fila_cheia_exemplo = 5 ∧
  tamanho fila_cheia_exemplo + Z.min (-3) CAPACIDADE_FILA = 2.
Proof. repeat split. Qed.

(** C7. An oversized initial fill is clamped: for every [n] above the
    capacity, [preencherFilaInicial] on a freshly initialised queue returns
    with [tamanho = 5] and prints nothing (no error is reported); [n = 10]
    is one such call. *)
Theorem preencherFilaInicial_limita (lixo : FilaPecas) (n : Z) (w : Mundo) :
  n > CAPACIDADE_FILA ->
  ∃ fila' w',
    preencherFilaInicial (inicializarFila lixo) n w = Some (fila', w') ∧
    tamanho fila' = 5 ∧
    stdout w' = stdout w.
Proof.
  intros Hn. unfold preencherFilaInicial. rewrite limite_preencher.
  rewrite Z.min_r by lia.
  destruct (preencher_laco_total (Z.to_nat CAPACIDADE_FILA)
              (inicializarFila lixo) w)
    as (fila' & w' & Hrun & Htam & _ & _ & _ & _ & Hout).
  - unfold INT_MAX. simpl. lia.
  - unfold INT_MIN. simpl. lia.
  - unfold INT_MAX, CAPACIDADE_FILA. simpl. lia.
  - exists fila', w'. split; [exact Hrun |]. split; [| exact Hout].
    rewrite Htam. reflexivity.
Qed.

(** While there is room, the loop of the bulk fill and the same number of
    calls of [inserirPeca] walk through the same queues; only the messages
    of [inserirPeca] tell the two worlds apart. *)
Lemma preencher_laco_repetir (voltas : nat) (fila : FilaPecas) (w1 w2 : Mundo) :
  tras_valido fila -> 0 <= tamanho fila ->
  tamanho fila + Z.of_nat voltas <= CAPACIDADE_FILA ->
  mesmo_salvo_stdout w1 w2 ->
  ∃ fila' w1' w2',
    preencher_laco voltas fila w1 = Some (fila', w1') ∧
    repetir voltas ChInserir fila w2 = Some ((replicate voltas 1, fila'), w2') ∧
    mesmo_salvo_stdout w1' w2'.
Proof.
  revert fila w1 w2.
  induction voltas as [| k IH]; intros fila w1 w2 Ht Hlo Hhi Hw.
  - exists fila, w1, w2. repeat split; apply Hw.
  - destruct (preencher_laco_S k fila w1 (tras_valido_int _ Ht))
      as (v & Hv & _ & ->).
    destruct (inserirPeca_livre fila w2) as (v2 & Hv2 & _ & Hins);
      [lia | exact Ht |].
    rewrite <- (peca_gerada_salvo_stdout w1 w2 Hw) in Hv2, Hins.
    assert (v2 = v) as -> by congruence.
    rewrite (repetir_S k ChInserir _ _ _ _ _ Hins).
    edestruct (IH (fila_apos_inserir fila v) (mundo_apos_gerar w1))
      as (fila' & w1' & w2' & Hrun & Hrep & Hw').
    + apply tras_valido_apos_inserir.
    + simpl. unfold int_add.
      rewrite int_wrap_id; unfold INT_MIN, INT_MAX, CAPACIDADE_FILA in *; lia.
    + simpl. unfold int_add.
      rewrite int_wrap_id; unfold INT_MIN, INT_MAX, CAPACIDADE_FILA in *; lia.
    + apply mesmo_salvo_stdout_printf, mundo_apos_gerar_salvo_stdout, Hw.
    + exists fila', w1', w2'. rewrite Hrun, Hrep. auto.
Qed.

(** C8. The bulk fill refines repeated enqueue: for every [n >= 0],
    [preencherFilaInicial] on a freshly initialised queue and
    [min(n, capacity)] calls of [inserirPeca] on the same queue both return,
    every one of those calls succeeds, the two final queues are equal, and
    the id counter and the random source end in the same state, that is, the
    same number of pieces was generated. *)
Theorem preencherFilaInicial_refina_inserirPeca (lixo : FilaPecas) (n : Z) (w : Mundo) :
  0 <= n ->
  ∃ fila' w1 w2,
    preencherFilaInicial (inicializarFila lixo) n w = Some (fila', w1) ∧
    enfileirar_min_vezes (inicializarFila lixo) n w
    = Some ((replicate (Z.to_nat (Z.min n CAPACIDADE_FILA)) 1, fila'), w2) ∧
    proximo_id_peca w1 = proximo_id_peca w2 ∧
    rand_chamadas w1 = rand_chamadas w2 ∧
    rand_chamadas w1 = (rand_chamadas w + Z.to_N (Z.min n CAPACIDADE_FILA))%N.
Proof.
  intros Hn. unfold preencherFilaInicial, enfileirar_min_vezes.
  rewrite limite_preencher.
  destruct (preencher_laco_repetir (Z.to_nat (Z.min n CAPACIDADE_FILA))
              (inicializarFila lixo) w w)
    as (fila' & w1 & w2 & Hrun & Hrep & Hi & _ & Hc).
  - unfold tras_valido, CAPACIDADE_FILA. simpl. lia.
  - simpl. lia.
  - simpl. unfold CAPACIDADE_FILA. lia.
  - apply mesmo_salvo_stdout_refl.
  - exists fila', w1, w2. repeat split; try assumption.
    destruct (preencher_laco_total (Z.to_nat (Z.min n CAPACIDADE_FILA))
                (inicializarFila lixo) w)
      as (fila'' & w1'' & Hrun' & _ & _ & _ & Hrc & _ & _).
    + unfold INT_MAX. simpl. lia.
    + unfold INT_MIN. simpl. lia.
    + unfold INT_MAX, CAPACIDADE_FILA. simpl. lia.
    + rewrite Hrun in Hrun'. injection Hrun' as _ <-. rewrite Hrc. lia.
Qed.

(** ** The occupancy bound *)

Lemma fila_valida_inicializarFila (lixo : FilaPecas) :
  fila_valida (inicializarFila lixo).
Proof.
  unfold fila_valida, frente_valida, tras_valido, tamanho_valido, CAPACIDADE_FILA.
  simpl. lia.
Qed.

(** A call on a queue whose fields are in range returns, and the fields of
    the queue it leaves are in range. *)
Lemma chamar_fila_valida (c : Chamada) (fila : FilaPecas) (w : Mundo) :
  fila_valida fila ->
  ∃ r fila' w', chamar c fila w = Some ((r, fila'), w') ∧ fila_valida fila'.
Proof.
  intros (Hf & Ht & Hs). destruct c; simpl.
  - destruct (decide (tamanho fila = CAPACIDADE_FILA)) as [Hc | Hc].
    + rewrite (inserirPeca_cheia fila w Hc). do 3 eexists.
      split; [reflexivity | exact (conj Hf (conj Ht Hs))].
    + destruct (inserirPeca_livre fila w Hc Ht) as (v & _ & _ & ->).
      do 3 eexists. split; [reflexivity |].
      split; [exact Hf |]. split; [apply tras_valido_apos_inserir |].
      unfold tamanho_valido in *. simpl. unfold int_add.
      rewrite int_wrap_id; unfold INT_MIN, INT_MAX, CAPACIDADE_FILA in *; lia.
  - destruct (decide (tamanho fila = 0)) as [Hc | Hc].
    + rewrite (jogarPeca_vazia fila w Hc). do 3 eexists.
      split; [reflexivity |]. split; [exact Hf |].
      split; [| exact Hs]. unfold tras_valido, CAPACIDADE_FILA. simpl. lia.
    + rewrite (jogarPeca_ocupada fila w Hc Hf). do 3 eexists.
      split; [reflexivity |].
      split; [apply frente_valida_apos_jogar |]. split; [exact Ht |].
      unfold tamanho_valido in *. simpl. unfold int_sub.
      rewrite int_wrap_id; unfold INT_MIN, INT_MAX, CAPACIDADE_FILA in *; lia.
Qed.

Lemma executar_fila_valida (cs : list Chamada) (fila : FilaPecas) (w : Mundo) :
  fila_valida fila ->
  ∃ fila' w', executar cs fila w = Some (fila', w') ∧ fila_valida fila'.
Proof.
  revert fila w. induction cs as [| c cs IH]; intros fila w Hv.
  - exists fila, w. split; [reflexivity | exact Hv].
  - destruct (chamar_fila_valida c fila w Hv) as (r & fila1 & w1 & Hc & Hv1).
    destruct (IH fila1 w1 Hv1) as (fila' & w' & Hrun & Hv').
    exists fila', w'. split; [| exact Hv'].
    simpl. desdobrar. rewrite Hc. exact Hrun.
Qed.

(** C4. Occupancy bound: every sequence of [inserirPeca] and [jogarPeca]
    calls on an initialised queue runs to its end, and the [tamanho] it
    leaves is between 0 and the capacity 5.  The sequence is arbitrary, so
    the bound holds after each of its calls; it holds as well when the queue
    was first filled by [preencherFilaInicial], as [main] does. *)
Theorem tamanho_sempre_limitado (cs : list Chamada) (lixo : FilaPecas) (w : Mundo) :
  (∃ fila' w',
     executar cs (inicializarFila lixo) w = Some (fila', w') ∧
     0 <= tamanho fila' <= 5) ∧
  (∀ n, ∃ fila0 w0 fila' w',
     preencherFilaInicial (inicializarFila lixo) n w = Some (fila0, w0) ∧
     executar cs fila0 w0 = Some (fila', w') ∧
     0 <= tamanho fila' <= 5).
Proof.
  split.
  - destruct (executar_fila_valida cs _ w (fila_valida_inicializarFila lixo))
      as (fila' & w' & Hrun & _ & _ & Hs).
    exists fila', w'. split; [exact Hrun | exact Hs].
  - intros n. unfold preencherFilaInicial. rewrite limite_preencher.
    destruct (preencher_laco_total (Z.to_nat (Z.min n CAPACIDADE_FILA))
                (inicializarFila lixo) w)
      as (fila0 & w0 & Hrun0 & Htam & Hfr & Htr & _).
    + unfold INT_MAX. simpl. lia.
    + unfold INT_MIN. simpl. lia.
    + unfold INT_MAX, CAPACIDADE_FILA. simpl. lia.
    + destruct (executar_fila_valida cs fila0 w0) as (fila' & w' & Hrun & _ & _ & Hs).
      * split; [| split; [apply Htr, fila_valida_inicializarFila |]].
        -- unfold frente_valida, CAPACIDADE_FILA. rewrite Hfr. simpl. lia.
        -- unfold tamanho_valido, CAPACIDADE_FILA in *. rewrite Htam. simpl. lia.
      * exists fila0, w0, fila', w'. auto.
Qed.

(** ** The id counter *)



Lemma ids_inseridos_app (l1 l2 : list Saida) :
  ids_inseridos (l1 ++ l2) = ids_inseridos l1 ++ ids_inseridos l2.
Proof. apply omap_app. Qed.

Lemma ids_jogados_app (l1 l2 : list Saida) :
  ids_jogados (l1 ++ l2) = ids_jogados l1 ++ ids_jogados l2.
Proof. apply omap_app. Qed.

(** What one call does to the counter and to the list of announced ids:
    either nothing, or the current value is announced and the counter
    advances by one. *)
Lemma chamar_contador (c : Chamada) (fila : FilaPecas) (w : Mundo) :
  fila_valida fila ->
  INT_MIN <= proximo_id_peca w < INT_MAX ->
  ∃ r fila' w' (novo : bool),
    chamar c fila w = Some ((r, fila'), w') ∧ fila_valida fila' ∧
    proximo_id_peca w' = proximo_id_peca w + (if novo then 1 else 0) ∧
    ids_inseridos (stdout w')
    = ids_inseridos (stdout w) ++ (if novo then [proximo_id_peca w] else []).
Proof.
  intros Hv Hid.
  destruct (chamar_fila_valida c fila w Hv) as (r & fila' & w' & Hc & Hv').
  exists r, fila', w'. destruct Hv as (Hf & Ht & Hs).
  assert (∃ novo : bool,
            proximo_id_peca w' = proximo_id_peca w + (if novo then 1 else 0) ∧
            ids_inseridos (stdout w')
            = ids_inseridos (stdout w)
              ++ (if novo then [proximo_id_peca w] else [])) as (novo & Hn).
  { destruct c; simpl in Hc.
    - destruct (decide (tamanho fila = CAPACIDADE_FILA)) as [Hfull | Hfull].
      + rewrite (inserirPeca_cheia fila w Hfull) in Hc. injection Hc as _ _ <-.
        exists false. simpl. rewrite ids_inseridos_app. simpl. split; [lia | done].
      + destruct (inserirPeca_livre fila w Hfull Ht) as (v & _ & _ & Hins).
        rewrite Hins in Hc. injection Hc as _ _ <-.
        exists true. simpl. rewrite ids_inseridos_app. simpl.
        unfold int_add. rewrite int_wrap_id by lia. split; [lia | done].
    - destruct (decide (tamanho fila = 0)) as [Hemp | Hemp].
      + rewrite (jogarPeca_vazia fila w Hemp) in Hc. injection Hc as _ _ <-.
        exists false. simpl. rewrite ids_inseridos_app. simpl. split; [lia | done].
      + rewrite (jogarPeca_ocupada fila w Hemp Hf) in Hc. injection Hc as _ _ <-.
        exists false. simpl. rewrite ids_inseridos_app. simpl. split; [lia | done]. }
  exists novo. split; [exact Hc |]. split; [exact Hv' | exact Hn].
Qed.

(** Across any sequence of calls the announced ids are consecutive, starting
    at the value the counter had, however insertions and removals alternate. *)
Lemma executar_ids_consecutivos (cs : list Chamada) (fila : FilaPecas) (w : Mundo) :
  fila_valida fila ->
  INT_MIN <= proximo_id_peca w ->
  proximo_id_peca w + Z.of_nat (length cs) <= INT_MAX ->
  ∃ fila' w' (m : nat),
    executar cs fila w = Some (fila', w') ∧
    (m <= length cs)%nat ∧
    proximo_id_peca w' = proximo_id_peca w + Z.of_nat m ∧
    ids_inseridos (stdout w')
    = ids_inseridos (stdout w) ++ seqZ (proximo_id_peca w) (Z.of_nat m).
Proof.
  revert fila w. induction cs as [| c cs IH]; intros fila w Hv Hlo Hhi.
  - exists fila, w, 0%nat. simpl. rewrite seqZ_nil, app_nil_r by lia.
    repeat split; lia.
  - simpl length in Hhi.
    destruct (chamar_contador c fila w Hv)
      as (r & fila1 & w1 & novo & Hc & Hv1 & Hid1 & Hout1); [lia |].
    destruct (IH fila1 w1 Hv1) as (fila' & w' & m & Hrun & Hm & Hid & Hout).
    { destruct novo; lia. }
    { destruct novo; lia. }
    exists fila', w', (if novo then S m else m).
    split; [simpl; desdobrar; rewrite Hc; exact Hrun |].
    rewrite Hout, Hout1, Hid, Hid1.
    destruct novo.
    + rewrite (seqZ_cons _ (Z.of_nat (S m))) by lia.
      replace (Z.pred (Z.of_nat (S m))) with (Z.of_nat m) by lia.
      rewrite <- app_assoc. simpl.
      replace (Z.succ (proximo_id_peca w)) with (proximo_id_peca w + 1) by lia.
      repeat split; simpl; lia.
    + rewrite app_nil_r, Z.add_0_r. repeat split; simpl; lia.
Qed.



(** ** The circular run of occupied slots *)

Lemma percurso_fmap (n : nat) (v : vec Peca 5) (i : Z) :
  0 <= i < CAPACIDADE_FILA ->
  percurso n v i
  = (λ k : nat, slot v ((i + Z.of_nat k) mod CAPACIDADE_FILA)) <$> seq 0 n.
Proof.
  revert i. induction n as [| n IH]; intros i Hi; [reflexivity |].
  simpl. f_equal.
  - rewrite Z.add_0_r, Z.mod_small by exact Hi. reflexivity.
  - rewrite IH by apply avanco_circular_range.
    rewrite <- fmap_S_seq, <- list_fmap_compose.
    apply list_fmap_ext. intros _ k _. simpl. f_equal.
    rewrite Zplus_mod_idemp_l. f_equal. lia.
Qed.

Lemma length_percurso (n : nat) (v : vec Peca 5) (i : Z) :
  length (percurso n v i) = n.
Proof.
  revert i. induction n as [| n IH]; intros i; simpl; [| rewrite IH]; reflexivity.
Qed.

Lemma percurso_snoc (n : nat) (v : vec Peca 5) (i : Z) :
  0 <= i < CAPACIDADE_FILA ->
  percurso (S n) v i
  = percurso n v i ++ [slot v ((i + Z.of_nat n) mod CAPACIDADE_FILA)].
Proof.
  intros Hi. rewrite !percurso_fmap by exact Hi.
  rewrite seq_S, fmap_app. reflexivity.
Qed.

(** Writing right after a run of fewer than five slots does not touch the
    run. *)
Lemma percurso_escrever (n : nat) (v v' : vec Peca 5) (i : Z) (p : Peca) :
  0 <= i < CAPACIDADE_FILA -> Z.of_nat n < CAPACIDADE_FILA ->
  escrever v ((i + Z.of_nat n) mod CAPACIDADE_FILA) p = Some v' ->
  percurso n v' i = percurso n v i.
Proof.
  intros Hi Hn Hw. rewrite !percurso_fmap by exact Hi.
  apply list_fmap_ext. intros j k Hk.
  apply lookup_seq in Hk as [-> Hk]. simpl.
  eapply escrever_ler_ne; [exact Hw | apply Z.mod_pos_bound; reflexivity |].
  unfold CAPACIDADE_FILA in *. intros Heq.
  revert Heq. Z.div_mod_to_equations. lia.
Qed.

Lemma representa_vazia_inicializarFila (lixo : FilaPecas) :
  representa (inicializarFila lixo) [].
Proof.
  split; [apply fila_valida_inicializarFila |]. simpl. auto.
Qed.

(** A successful insertion appends the generated piece to the contents. *)
Lemma representa_inserirPeca (fila : FilaPecas) (l : list Peca) (w : Mundo) :
  representa fila l -> (length l < 5)%nat ->
  ∃ fila',
    inserirPeca fila w
    = Some ((1, fila'),
            set_stdout (mundo_apos_gerar w)
              (stdout w ++ [MsgPecaInserida (tipo (peca_gerada w))
                                            (id (peca_gerada w))])) ∧
    frente fila' = frente fila ∧
    representa fila' (l ++ [peca_gerada w]).
Proof.
  intros ((Hf & Ht & Hs) & Htam & Hpos & Hl) Hlen.
  destruct (inserirPeca_livre fila w) as (v & Hv & Hslot & Hins);
    [unfold CAPACIDADE_FILA; lia | exact Ht |].
  exists (fila_apos_inserir fila v). split; [exact Hins |].
  split; [reflexivity |].
  assert (tamanho (fila_apos_inserir fila v) = tamanho fila + 1) as Htam'.
  { simpl. unfold int_add. apply int_wrap_id. unfold INT_MIN, INT_MAX. lia. }
  split; [| split; [| split]].
  - split; [exact Hf |]. split; [apply tras_valido_apos_inserir |].
    unfold tamanho_valido, CAPACIDADE_FILA. rewrite Htam'. lia.
  - rewrite Htam', length_app. simpl. lia.
  - rewrite Htam'. simpl tras. simpl frente.
    rewrite Hpos, Zplus_mod_idemp_l. f_equal. lia.
  - rewrite length_app. simpl length. rewrite Nat.add_1_r.
    simpl elementos. simpl frente.
    rewrite Hpos, Htam in Hv, Hslot.
    rewrite percurso_snoc by exact Hf.
    assert (Z.of_nat (length l) < CAPACIDADE_FILA) as Hlt
      by (unfold CAPACIDADE_FILA; lia).
    rewrite (percurso_escrever _ _ _ _ _ Hf Hlt Hv).
    rewrite Hl, Hslot. reflexivity.
Qed.

(** A successful removal announces and drops the oldest piece. *)
Lemma representa_jogarPeca (fila : FilaPecas) (p : Peca) (l : list Peca) (w : Mundo) :
  representa fila (p :: l) ->
  jogarPeca fila w
  = Some ((1, fila_apos_jogar fila),
          set_stdout w (stdout w ++ [MsgPecaJogada (tipo p) (id p)])) ∧
  representa (fila_apos_jogar fila) l.
Proof.
  intros ((Hf & Ht & Hs) & Htam & Hpos & Hl).
  simpl length in Htam, Hl. simpl in Hl. injection Hl as Hp Hl.
  split.
  - rewrite jogarPeca_ocupada by (try exact Hf; lia). rewrite Hp. reflexivity.
  - assert (tamanho (fila_apos_jogar fila) = tamanho fila - 1) as Htam'.
    { simpl. unfold int_sub. apply int_wrap_id.
      unfold tamanho_valido, INT_MIN, INT_MAX, CAPACIDADE_FILA in *. lia. }
    split; [| split; [| split]].
    + split; [apply frente_valida_apos_jogar |]. split; [exact Ht |].
      unfold tamanho_valido, CAPACIDADE_FILA in *. rewrite Htam'. lia.
    + rewrite Htam'. lia.
    + rewrite Htam'. simpl tras. simpl frente.
      rewrite Hpos, Zplus_mod_idemp_l. f_equal. lia.
    + exact Hl.
Qed.

(** ** Runs of insertions and removals on a coherent queue *)

Lemma pecas_geradas_salvo_stdout (n : nat) (w1 w2 : Mundo) :
  mesmo_salvo_stdout w1 w2 -> pecas_geradas n w1 = pecas_geradas n w2.
Proof.
  revert w1 w2. induction n as [| n IH]; intros w1 w2 Hw; [reflexivity |].
  simpl. rewrite (peca_gerada_salvo_stdout w1 w2 Hw). f_equal.
  apply IH, mundo_apos_gerar_salvo_stdout, Hw.
Qed.

Lemma apos_gerar_salvo_stdout (n : nat) (w1 w2 : Mundo) :
  mesmo_salvo_stdout w1 w2 ->
  mesmo_salvo_stdout (apos_gerar n w1) (apos_gerar n w2).
Proof.
  revert w1 w2. induction n as [| n IH]; intros w1 w2 Hw; [exact Hw |].
  simpl. apply IH, mundo_apos_gerar_salvo_stdout, Hw.
Qed.

Lemma mesmo_salvo_stdout_sym (w1 w2 : Mundo) :
  mesmo_salvo_stdout w1 w2 -> mesmo_salvo_stdout w2 w1.
Proof. intros (H1 & H2 & H3). repeat split; congruence. Qed.

Lemma mesmo_salvo_stdout_trans (w1 w2 w3 : Mundo) :
  mesmo_salvo_stdout w1 w2 -> mesmo_salvo_stdout w2 w3 ->
  mesmo_salvo_stdout w1 w3.
Proof. intros (H1 & H2 & H3) (H4 & H5 & H6). repeat split; congruence. Qed.

(** While there is room, [n] calls of [inserirPeca] all succeed and append
    the [n] generated pieces to the contents. *)
Lemma repetir_inserir_representa (n : nat) (fila : FilaPecas) (l : list Peca)
    (w : Mundo) :
  representa fila l -> (length l + n <= 5)%nat ->
  ∃ fila' w',
    repetir n ChInserir fila w = Some ((replicate n 1, fila'), w') ∧
    frente fila' = frente fila ∧
    representa fila' (l ++ pecas_geradas n w) ∧
    mesmo_salvo_stdout w' (apos_gerar n w) ∧
    stdout w' = stdout w ++ (anuncio_inserida <$> pecas_geradas n w).
Proof.
  revert fila l w. induction n as [| n IH]; intros fila l w Hr Hn.
  - exists fila, w. simpl. rewrite !app_nil_r.
    split; [reflexivity |]. split; [reflexivity |]. split; [exact Hr |].
    split; [apply mesmo_salvo_stdout_refl | reflexivity].
  - destruct (representa_inserirPeca fila l w Hr) as (fila1 & Hins & Hf1 & Hr1);
      [lia |].
    set (w1 := set_stdout (mundo_apos_gerar w)
                 (stdout w ++ [MsgPecaInserida (tipo (peca_gerada w))
                                               (id (peca_gerada w))])) in *.
    assert (mesmo_salvo_stdout w1 (mundo_apos_gerar w)) as Hw1
      by (apply mesmo_salvo_stdout_sym, mesmo_salvo_stdout_printf,
            mesmo_salvo_stdout_refl).
    destruct (IH fila1 (l ++ [peca_gerada w]) w1 Hr1)
      as (fila' & w' & Hrep & Hf & Hr' & Hw' & Hout).
    { rewrite length_app. simpl. lia. }
    exists fila', w'.
    rewrite (repetir_S n ChInserir _ _ _ _ _ Hins), Hrep.
    rewrite (pecas_geradas_salvo_stdout n _ _ Hw1) in Hr', Hout.
    split; [reflexivity |]. split; [congruence |].
    split; [rewrite <- app_assoc in Hr'; exact Hr' |].
    split.
    + eapply mesmo_salvo_stdout_trans; [exact Hw' |].
      simpl apos_gerar. apply apos_gerar_salvo_stdout, Hw1.
    + rewrite Hout. unfold w1. simpl. rewrite <- app_assoc. reflexivity.
Qed.

(** Removing as many pieces as a prefix of the contents holds announces
    exactly that prefix, oldest first. *)
Lemma repetir_jogar_representa (l1 l2 : list Peca) (fila : FilaPecas) (w : Mundo) :
  representa fila (l1 ++ l2) ->
  ∃ fila' w',
    repetir (length l1) ChJogar fila w
    = Some ((replicate (length l1) 1, fila'), w') ∧
    representa fila' l2 ∧
    elementos fila' = elementos fila ∧
    frente fila' = (frente fila + Z.of_nat (length l1)) mod CAPACIDADE_FILA ∧
    mesmo_salvo_stdout w w' ∧
    stdout w' = stdout w ++ (anuncio_jogada <$> l1).
Proof.
  revert fila w. induction l1 as [| p l1 IH]; intros fila w Hr.
  - exists fila, w. simpl. rewrite app_nil_r, Z.add_0_r.
    split; [reflexivity |]. split; [exact Hr |]. split; [reflexivity |].
    split; [symmetry; apply Z.mod_small, Hr |].
    split; [apply mesmo_salvo_stdout_refl | reflexivity].
  - destruct (representa_jogarPeca fila p (l1 ++ l2) w Hr) as (Hj & Hr1).
    destruct (IH (fila_apos_jogar fila)
                (set_stdout w (stdout w ++ [MsgPecaJogada (tipo p) (id p)]))
                Hr1) as (fila' & w' & Hrep & Hr' & Hel & Hfr & Hw' & Hout).
    exists fila', w'. simpl length.
    rewrite (repetir_S _ ChJogar _ _ _ _ _ Hj), Hrep.
    split; [reflexivity |]. split; [exact Hr' |]. split; [exact Hel |].
    split; [| split].
    + rewrite Hfr. simpl frente. rewrite Zplus_mod_idemp_l. f_equal. lia.
    + eapply mesmo_salvo_stdout_trans; [| exact Hw'].
      apply mesmo_salvo_stdout_printf, mesmo_salvo_stdout_refl.
    + rewrite Hout. simpl. rewrite <- app_assoc. reflexivity.
Qed.

(** FIFO order on a coherent queue: on an empty queue whose next write
    position is [frente], [n <= 5] insertions followed by [n] removals all
    succeed, and the pieces announced by the removals are the pieces
    announced by the insertions, in the same order. *)
Lemma fifo_em_fila_coerente (n : nat) (fila : FilaPecas) (w : Mundo) :
  representa fila [] -> (n <= 5)%nat ->
  ∃ fila1 w1 fila2 w2 novas,
    repetir n ChInserir fila w = Some ((replicate n 1, fila1), w1) ∧
    repetir n ChJogar fila1 w1 = Some ((replicate n 1, fila2), w2) ∧
    length novas = n ∧
    stdout w2
    = stdout w ++ (anuncio_inserida <$> novas) ++ (anuncio_jogada <$> novas) ∧
    representa fila2 [].
Proof.
  intros Hr Hn.
  destruct (repetir_inserir_representa n fila [] w Hr)
    as (fila1 & w1 & Hrep1 & _ & Hr1 & _ & Hout1); [simpl; lia |].
  simpl in Hr1.
  assert (length (pecas_geradas n w) = n) as Hlen.
  { clear. revert w. induction n as [| n IH]; intros w; simpl;
      [| rewrite IH]; reflexivity. }
  rewrite <- (app_nil_r (pecas_geradas n w)) in Hr1.
  destruct (repetir_jogar_representa _ _ fila1 w1 Hr1)
    as (fila2 & w2 & Hrep2 & Hr2 & _ & _ & _ & Hout2).
  rewrite Hlen in Hrep2.
  exists fila1, w1, fila2, w2, (pecas_geradas n w).
  split; [exact Hrep1 |]. split; [exact Hrep2 |]. split; [exact Hlen |].
  split; [| exact Hr2].
  rewrite Hout2, Hout1, <- app_assoc. reflexivity.
Qed.

(** ** The display *)

Lemma pecas_exibidas_app (l1 l2 : list Saida) :
  pecas_exibidas (l1 ++ l2) = pecas_exibidas l1 ++ pecas_exibidas l2.
Proof. apply omap_app. Qed.

(** The loop of [exibirFila]: from a valid subscript it returns after
    printing the [n] slots of the circular walk, and it only prints. *)
Lemma exibir_laco_percurso (n : nat) (fila : FilaPecas) (i count : Z) (w : Mundo) :
  0 <= i < CAPACIDADE_FILA ->
  ∃ w', exibir_laco n fila i count w = Some (tt, w') ∧
        mesmo_salvo_stdout w w' ∧
        pecas_exibidas (stdout w')
        = pecas_exibidas (stdout w) ++ percurso n (elementos fila) i.
Proof.
  revert i count w. induction n as [| n IH]; intros i count w Hi.
  - exists w. simpl. rewrite app_nil_r.
    split; [reflexivity |]. split; [apply mesmo_salvo_stdout_refl | reflexivity].
  - simpl. desdobrar. rewrite (ler_slot _ _ Hi).
    rewrite avanco_circular by (unfold CAPACIDADE_FILA, INT_MAX in *; lia).
    set (p := slot (elementos fila) i).
    set (w1 := set_stdout w (stdout w ++ [ItemFila (tipo p) (id p)])).
    assert (pecas_exibidas (stdout w1) = pecas_exibidas (stdout w) ++ [p]) as H1.
    { unfold w1. simpl. rewrite pecas_exibidas_app. simpl. destruct p.
      reflexivity. }
    assert (mesmo_salvo_stdout w w1) as Hw1
      by apply mesmo_salvo_stdout_printf, mesmo_salvo_stdout_refl.
    clearbody w1.
    assert (∃ w2, (if count <? int_sub (tamanho fila) 1
                   then printf Seta else mret tt) w1 = Some (tt, w2) ∧
                  mesmo_salvo_stdout w w2 ∧
                  pecas_exibidas (stdout w2) = pecas_exibidas (stdout w) ++ [p])
      as (w2 & Hif & Hw2 & Hout2).
    { destruct (count <? int_sub (tamanho fila) 1).
      - exists (set_stdout w1 (stdout w1 ++ [Seta])).
        split; [reflexivity |]. split.
        + apply mesmo_salvo_stdout_printf, Hw1.
        + simpl. rewrite pecas_exibidas_app, H1. simpl. apply app_nil_r.
      - exists w1. split; [reflexivity |]. split; [exact Hw1 | exact H1]. }
    destruct (IH ((i + 1) mod CAPACIDADE_FILA) (int_add count 1) w2
                (avanco_circular_range i)) as (w' & Hrun & Hw' & Hout).
    exists w'. unfold mret, M_ret, printf in Hif. rewrite Hif, Hrun.
    split; [reflexivity |]. split.
    + eapply mesmo_salvo_stdout_trans; eassumption.
    + rewrite Hout, Hout2, <- app_assoc. reflexivity.
Qed.

Lemma exibirFila_percurso (fila : FilaPecas) (w : Mundo) :
  frente_valida fila ->
  ∃ w', exibirFila fila w = Some (tt, w') ∧
        mesmo_salvo_stdout w w' ∧
        pecas_exibidas (stdout w')
        = pecas_exibidas (stdout w)
          ++ percurso (Z.to_nat (tamanho fila)) (elementos fila) (frente fila).
Proof.
  intros Hf. unfold exibirFila.
  destruct (Z.eqb_spec (tamanho fila) 0) as [Hz | Hz].
  - eexists. split; [reflexivity |]. split.
    + apply mesmo_salvo_stdout_printf, mesmo_salvo_stdout_printf,
        mesmo_salvo_stdout_refl.
    + rewrite Hz. simpl. rewrite !pecas_exibidas_app. simpl.
      rewrite !app_nil_r. reflexivity.
  - set (w1 := set_stdout w (stdout w ++ [CabecalhoFila (tamanho fila) CAPACIDADE_FILA])).
    set (w2 := set_stdout w1 (stdout w1 ++ [PrefixoFila])).
    assert (mesmo_salvo_stdout w w2) as Hw2
      by apply mesmo_salvo_stdout_printf, mesmo_salvo_stdout_printf,
           mesmo_salvo_stdout_refl.
    assert (pecas_exibidas (stdout w2) = pecas_exibidas (stdout w)) as Hout2.
    { unfold w2, w1. simpl. rewrite !pecas_exibidas_app. simpl.
      rewrite !app_nil_r. reflexivity. }
    destruct (exibir_laco_percurso (Z.to_nat (tamanho fila)) fila (frente fila)
                0 w2 Hf) as (w3 & Hrun & Hw3 & Hout3).
    exists (set_stdout (set_stdout w3 (stdout w3 ++ [NovaLinha]))
              (stdout (set_stdout w3 (stdout w3 ++ [NovaLinha])) ++ [FimDaFila])).
    split; [| split].
    + desdobrar. fold w1. fold w2. rewrite Hrun. reflexivity.
    + apply mesmo_salvo_stdout_printf, mesmo_salvo_stdout_printf.
      exact (mesmo_salvo_stdout_trans w w2 w3 Hw2 Hw3).
    + simpl. rewrite !pecas_exibidas_app, Hout3, Hout2. simpl.
      rewrite !app_nil_r. reflexivity.
Qed.

Lemma percurso_representa (fila : FilaPecas) (l : list Peca) :
  representa fila l ->
  percurso (Z.to_nat (tamanho fila)) (elementos fila) (frente fila) = l.
Proof.
  intros (_ & Htam & _ & Hl). rewrite Htam, Nat2Z.id. exact Hl.
Qed.

Lemma ids_exibidos_representa (fila : FilaPecas) (l : list Peca) (w : Mundo) :
  representa fila l -> ids_exibidos fila w = Some (id <$> l).
Proof.
  intros Hr. unfold ids_exibidos.
  destruct (exibirFila_percurso fila (set_stdout w []) (proj1 (proj1 Hr)))
    as (w' & -> & _ & Hout).
  rewrite Hout, (percurso_representa fila l Hr). reflexivity.
Qed.

(** The bulk fill of a freshly initialised queue leaves a coherent queue
    that holds the generated pieces in generation order. *)
Lemma preencherFilaInicial_representa (lixo : FilaPecas) (n : Z) (w : Mundo) :
  0 <= n ->
  ∃ fila' w',
    preencherFilaInicial (inicializarFila lixo) n w = Some (fila', w') ∧
    frente fila' = 0 ∧
    representa fila' (pecas_geradas (Z.to_nat (Z.min n CAPACIDADE_FILA)) w) ∧
    mesmo_salvo_stdout w'
      (apos_gerar (Z.to_nat (Z.min n CAPACIDADE_FILA)) w).
Proof.
  intros Hn. unfold preencherFilaInicial. rewrite limite_preencher.
  set (k := Z.to_nat (Z.min n CAPACIDADE_FILA)).
  assert (k <= 5)%nat as Hk by (unfold k, CAPACIDADE_FILA; lia).
  destruct (preencher_laco_repetir k (inicializarFila lixo) w w)
    as (fila' & w1 & w2 & Hrun & Hrep & Hw12).
  - unfold tras_valido, CAPACIDADE_FILA. simpl. lia.
  - simpl. lia.
  - simpl. unfold CAPACIDADE_FILA. lia.
  - apply mesmo_salvo_stdout_refl.
  - destruct (repetir_inserir_representa k (inicializarFila lixo) [] w
                (representa_vazia_inicializarFila lixo))
      as (fila'' & w2' & Hrep' & Hfr & Hr & Hw2 & _); [simpl; lia |].
    rewrite Hrep in Hrep'. injection Hrep' as <- <-.
    exists fila', w1. split; [exact Hrun |]. split; [exact Hfr |].
    split; [exact Hr |].
    eapply mesmo_salvo_stdout_trans; eassumption.
Qed.

(** What the display shows at start-up and one removal and one insertion
    later, whatever the array held before and whatever [rand()] draws. *)
Lemma exibicao_no_arranque (lixo : FilaPecas) (fonte : N -> N) :
  ∃ fila5 w5 fila6 w6,
    preencherFilaInicial (inicializarFila lixo) 5 (mundo_inicial fonte)
    = Some (fila5, w5) ∧
    ids_exibidos fila5 w5 = Some [0; 1; 2; 3; 4] ∧
    executar [ChJogar; ChInserir] fila5 w5 = Some (fila6, w6) ∧
    ids_exibidos fila6 w6 = Some [1; 2; 3; 4; 5].
Proof.
  set (w0 := mundo_inicial fonte).
  destruct (preencherFilaInicial_representa lixo 5 w0)
    as (fila5 & w5 & Hrun & _ & Hr & Hw5); [lia |].
  change (Z.to_nat (Z.min 5 CAPACIDADE_FILA)) with 5%nat in Hr, Hw5.
  assert (pecas_geradas 5 w0
          = peca_gerada w0 :: pecas_geradas 4 (mundo_apos_gerar w0)) as Hl
    by reflexivity.
  destruct (representa_jogarPeca fila5 (peca_gerada w0)
              (pecas_geradas 4 (mundo_apos_gerar w0)) w5)
    as (Hj & Hr'); [rewrite <- Hl; exact Hr |].
  set (fila5' := fila_apos_jogar fila5) in *.
  set (w5' := set_stdout w5
                (stdout w5 ++ [MsgPecaJogada (tipo (peca_gerada w0))
                                             (id (peca_gerada w0))])) in *.
  destruct (representa_inserirPeca fila5' _ w5' Hr') as (fila6 & Hi & _ & Hr6);
    [simpl; lia |].
  assert (peca_gerada w5' = peca_gerada (apos_gerar 5 w0)) as Hp.
  { apply peca_gerada_salvo_stdout.
    apply mesmo_salvo_stdout_sym, mesmo_salvo_stdout_printf,
      mesmo_salvo_stdout_sym, Hw5. }
  rewrite Hp in Hr6.
  eexists fila5, w5, fila6, _.
  split; [exact Hrun |]. split; [| split].
  - rewrite (ids_exibidos_representa _ _ w5 Hr). reflexivity.
  - simpl. desdobrar. rewrite Hj. simpl. fold w5'. rewrite Hi. reflexivity.
  - rewrite (ids_exibidos_representa _ _ _ Hr6). reflexivity.
Qed.

(** C6. Snapshot correctness: on a queue whose [frente] is a valid position,
    [exibirFila] returns after listing exactly [tamanho] slots, namely the
    slots [(frente + k) mod 5] for [k = 0 .. tamanho - 1], in that order; it
    changes nothing but the text printed (the queue is a read-only argument,
    and the id counter and the random source are left alone); on a coherent
    queue what it lists is the contents, oldest first.  In particular it
    lists ids 0..4 after the start-up fill of 5, and ids 1,2,3,4,5 after one
    removal and one insertion. *)
Theorem exibirFila_percorre_ocupados (fila : FilaPecas) (w : Mundo) :
  frente_valida fila ->
  (∃ w', exibirFila fila w = Some (tt, w') ∧
         mesmo_salvo_stdout w w' ∧
         pecas_exibidas (stdout w')
         = pecas_exibidas (stdout w)
           ++ percurso (Z.to_nat (tamanho fila)) (elementos fila) (frente fila)) ∧
  length (percurso (Z.to_nat (tamanho fila)) (elementos fila) (frente fila))
  = Z.to_nat (tamanho fila) ∧
  (∀ k : nat,
     (k < Z.to_nat (tamanho fila))%nat ->
     percurso (Z.to_nat (tamanho fila)) (elementos fila) (frente fila) !! k
     = ler (elementos fila) ((frente fila + Z.of_nat k) mod CAPACIDADE_FILA)) ∧
  (∀ l : list Peca,
     representa fila l ->
     percurso (Z.to_nat (tamanho fila)) (elementos fila) (frente fila) = l) ∧
  (∀ (lixo : FilaPecas) (fonte : N -> N),
     ∃ fila5 w5 fila6 w6,
       preencherFilaInicial (inicializarFila lixo) 5 (mundo_inicial fonte)
       = Some (fila5, w5) ∧
       ids_exibidos fila5 w5 = Some [0; 1; 2; 3; 4] ∧
       executar [ChJogar; ChInserir] fila5 w5 = Some (fila6, w6) ∧
       ids_exibidos fila6 w6 = Some [1; 2; 3; 4; 5]).
Proof.
  intros Hf.
  split; [apply (exibirFila_percurso fila w Hf) |].
  split; [apply length_percurso |].
  split; [| split; [apply percurso_representa | apply exibicao_no_arranque]].
  intros k Hk. rewrite percurso_fmap by exact Hf.
  rewrite list_lookup_fmap, lookup_seq_lt by exact Hk. simpl.
  rewrite ler_slot by (apply Z.mod_pos_bound; reflexivity). reflexivity.
Qed.

(** ** FIFO order and the reset of [tras] *)

Lemma executar_cons (c : Chamada) (cs : list Chamada) (fila fila' : FilaPecas)
    (r : Z) (w w' : Mundo) :
  chamar c fila w = Some ((r, fila'), w') ->
  executar (c :: cs) fila w = executar cs fila' w'.
Proof. intros Hc. simpl. desdobrar. rewrite Hc. reflexivity. Qed.

Lemma executar_replicate (n : nat) (c : Chamada) (cs : list Chamada)
    (fila fila' : FilaPecas) (rs : list Z) (w w' : Mundo) :
  repetir n c fila w = Some ((rs, fila'), w') ->
  executar (replicate n c ++ cs) fila w = executar cs fila' w'.
Proof.
  revert fila rs w. induction n as [| n IH]; intros fila rs w Hrep.
  - simpl in Hrep. injection Hrep as _ <- <-. reflexivity.
  - simpl in Hrep. unfold mbind, M_bind, mret, M_ret in Hrep.
    destruct (chamar c fila w) as [[[r fila1] w1] |] eqn:Hc; [| discriminate].
    destruct (repetir n c fila1 w1) as [[[rs1 fila2] w2] |] eqn:Hrep1;
      [| discriminate].
    injection Hrep as _ <- <-.
    simpl replicate. simpl app. rewrite (executar_cons _ _ _ _ _ _ _ Hc).
    apply (IH _ _ _ Hrep1).
Qed.

(** Evaluation of a whole session of [main] on concrete data: the user
    types 1 2 1 1 1 1 1 1 2 1. *)
Lemma sessao_com_peca_repetida :
  ∃ fila w,
    main fila_nao_inicializada [1; 2; 1; 1; 1; 1; 1; 1; 2; 1]
         (mundo_inicial fonte_exemplo) = Some (fila, w) ∧
    ids_inseridos (stdout w) = [5; 6] ∧
    ids_jogados (stdout w) = [0; 1; 2; 3; 4; 5; 1].
Proof.
  eexists _, _. split; [vm_compute; reflexivity |].
  split; vm_compute; reflexivity.
Qed.

(** C1 (evaluation at the failing input). FIFO order is lost after a removal
    attempted on an empty queue whose [frente] is not 0.  Whatever the array
    held at start-up and whatever [rand()] draws: after the start-up fill
    and the calls jogar, inserir, jogar x 5 the queue is empty; the next
    [jogarPeca] fails and resets [tras] to -1; the [inserirPeca] that
    follows succeeds and assigns id 6; the [jogarPeca] after it succeeds and
    returns the piece with id 1, which had been removed before.  So one
    successful enqueue followed by one dequeue does not return the enqueued
    id.  The last part runs [main] on the options 1 2 1 1 1 1 1 1 2 1. *)
Theorem fifo_violada_apos_fila_vazia (lixo : FilaPecas) (fonte : N -> N) :
  (∃ fila0 w0 fila w fila1 w1 fila2 w2,
     preencherFilaInicial (inicializarFila lixo) CAPACIDADE_FILA
                          (mundo_inicial fonte) = Some (fila0, w0) ∧
     executar [ChJogar; ChInserir; ChJogar; ChJogar; ChJogar; ChJogar; ChJogar;
               ChJogar] fila0 w0 = Some (fila, w) ∧
     tamanho fila = 0 ∧
     inserirPeca fila w = Some ((1, fila1), w1) ∧
     ids_inseridos (stdout w1) = ids_inseridos (stdout w) ++ [6] ∧
     jogarPeca fila1 w1 = Some ((1, fila2), w2) ∧
     ids_jogados (stdout w2) = ids_jogados (stdout w1) ++ [1]) ∧
  (∃ fila w,
     main fila_nao_inicializada [1; 2; 1; 1; 1; 1; 1; 1; 2; 1]
          (mundo_inicial fonte_exemplo) = Some (fila, w) ∧
     ids_inseridos (stdout w) = [5; 6] ∧
     ids_jogados (stdout w) = [0; 1; 2; 3; 4; 5; 1]).
Proof.
  split; [| exact sessao_com_peca_repetida].
  set (w0 := mundo_inicial fonte).
  (* start-up fill *)
  destruct (preencherFilaInicial_representa lixo CAPACIDADE_FILA w0)
    as (f5 & w5 & Hrun & Hfr5 & Hr5 & Hw5); [unfold CAPACIDADE_FILA; lia |].
  change (Z.to_nat (Z.min CAPACIDADE_FILA CAPACIDADE_FILA)) with 5%nat in Hr5, Hw5.
  set (p1 := peca_gerada (mundo_apos_gerar w0)).
  set (l3 := pecas_geradas 3 (mundo_apos_gerar (mundo_apos_gerar w0))).
  change (pecas_geradas 5 w0) with (peca_gerada w0 :: p1 :: l3) in Hr5.
  (* jogar *)
  destruct (representa_jogarPeca f5 _ _ w5 Hr5) as (Hj1 & Hr5').
  set (w5a := set_stdout w5 _) in Hj1.
  assert (mesmo_salvo_stdout w5a (apos_gerar 5 w0)) as Hw5a
    by (apply mesmo_salvo_stdout_sym, mesmo_salvo_stdout_printf,
          mesmo_salvo_stdout_sym, Hw5).
  (* inserir *)
  destruct (representa_inserirPeca (fila_apos_jogar f5) _ w5a Hr5')
    as (f6 & Hi & Hfr6 & Hr6); [simpl; lia |].
  set (w6 := set_stdout (mundo_apos_gerar w5a) _) in Hi.
  assert (mesmo_salvo_stdout w6 (apos_gerar 6 w0)) as Hw6.
  { apply mesmo_salvo_stdout_sym, mesmo_salvo_stdout_printf,
      mesmo_salvo_stdout_sym.
    apply (mundo_apos_gerar_salvo_stdout _ _ Hw5a). }
  assert (frente f6 = 1) as Hfr6'.
  { rewrite Hfr6. simpl. rewrite Hfr5. reflexivity. }
  assert (slot (elementos f6) 1 = p1) as Hslot.
  { destruct Hr6 as (_ & _ & _ & Hl). rewrite Hfr6' in Hl.
    simpl in Hl. injection Hl as Hl _. exact Hl. }
  (* jogar x 5: the queue is drained *)
  rewrite <- (app_nil_r ((p1 :: l3) ++ [peca_gerada w5a])) in Hr6.
  destruct (repetir_jogar_representa _ _ f6 w6 Hr6)
    as (f7 & w7 & Hrep & Hr7 & Hel7 & Hfr7 & Hw7 & _).
  change (length ((p1 :: l3) ++ [peca_gerada w5a])) with 5%nat in Hrep, Hfr7.
  rewrite Hfr6' in Hfr7. change ((1 + Z.of_nat 5) mod CAPACIDADE_FILA) with 1 in Hfr7.
  assert (tamanho f7 = 0) as Htam7 by apply Hr7.
  (* jogar on the empty queue *)
  pose proof (jogarPeca_vazia f7 w7 Htam7) as Hj2.
  set (fila := set_tras f7 (-1)) in Hj2.
  set (w := set_stdout w7 _) in Hj2.
  assert (mesmo_salvo_stdout w (apos_gerar 6 w0)) as Hw.
  { apply mesmo_salvo_stdout_sym, mesmo_salvo_stdout_printf.
    apply mesmo_salvo_stdout_sym.
    apply (mesmo_salvo_stdout_trans _ w6); [| exact Hw6].
    apply mesmo_salvo_stdout_sym, Hw7. }
  (* the enqueue and the dequeue under test *)
  destruct (inserirPeca_livre fila w) as (v & Hv & _ & Hins).
  { simpl. rewrite Htam7. unfold CAPACIDADE_FILA. lia. }
  { unfold tras_valido, CAPACIDADE_FILA. simpl. lia. }
  set (w1 := set_stdout (mundo_apos_gerar w) _) in Hins.
  assert (tamanho (fila_apos_inserir fila v) = 1) as Htam1
    by (simpl; rewrite Htam7; reflexivity).
  pose proof (jogarPeca_ocupada (fila_apos_inserir fila v) w1) as Hj3.
  simpl frente in Hj3. simpl elementos in Hj3. rewrite Hfr7 in Hj3.
  assert (slot v 1 = p1) as Hslot'.
  { rewrite (escrever_ler_ne _ _ _ 1 _ Hv).
    - simpl. rewrite Hel7. exact Hslot.
    - unfold CAPACIDADE_FILA. lia.
    - simpl. discriminate. }
  rewrite Hslot' in Hj3.
  exists f5, w5, fila, w, (fila_apos_inserir fila v), w1.
  eexists _, _.
  split; [exact Hrun |]. split; [| split; [exact Htam7 |]].
  { change [ChJogar; ChInserir; ChJogar; ChJogar; ChJogar; ChJogar; ChJogar; ChJogar]
      with (ChJogar :: ChInserir :: (replicate 5 ChJogar ++ [ChJogar])).
    rewrite (executar_cons ChJogar _ _ _ _ _ _ Hj1).
    rewrite (executar_cons ChInserir _ _ _ _ _ _ Hi).
    rewrite (executar_replicate _ _ _ _ _ _ _ _ Hrep).
    rewrite (executar_cons ChJogar _ _ _ _ _ _ Hj2). reflexivity. }
  split; [exact Hins |]. split; [| split].
  - unfold w1. simpl stdout. rewrite ids_inseridos_app. simpl. do 2 f_equal.
    change (proximo_id_peca w7) with (proximo_id_peca w).
    rewrite (proj1 Hw). reflexivity.
  - apply Hj3.
    + rewrite Htam1. discriminate.
    + unfold frente_valida, CAPACIDADE_FILA. simpl. rewrite Hfr7. lia.
  - simpl stdout. rewrite ids_jogados_app. reflexivity.
Qed.

(** ** The theorems at concrete inputs *)

(** Three attempts on the full start-up queue. *)
Lemma inserirPeca_cheia_idempotente_witness :
  tamanho fila_cheia_exemplo = CAPACIDADE_FILA ∧
  repetir 3 ChInserir fila_cheia_exemplo mundo_exemplo
  = Some (([0; 0; 0], fila_cheia_exemplo),
          set_stdout mundo_exemplo
            [MsgFilaCheia 5; MsgFilaCheia 5; MsgFilaCheia 5]).
Proof.
  split; [reflexivity |].
  exact (inserirPeca_cheia_idempotente fila_cheia_exemplo mundo_exemplo 3 eq_refl).
Defined.

(** Two attempts on a drained queue whose [frente] is 1 and [tras] is 0. *)
Lemma jogarPeca_vazia_idempotente_witness :
  tamanho fila_vazia_exemplo = 0 ∧
  repetir 2 ChJogar fila_vazia_exemplo mundo_exemplo
  = Some (([0; 0],
           {| elementos := elementos fila_vazia_exemplo; frente := 1;
              tras := -1; tamanho := 0 |}),
          set_stdout mundo_exemplo [MsgFilaVazia; MsgFilaVazia]).
Proof.
  split; [reflexivity |].
  exact (jogarPeca_vazia_idempotente fila_vazia_exemplo mundo_exemplo 1 eq_refl).
Defined.

(** A failed attempt at process start: the next id is still 0. *)
Lemma inserirPeca_cheia_nao_consome_id_witness :
  tamanho fila_cheia_exemplo = CAPACIDADE_FILA ∧
  ∃ w', inserirPeca fila_cheia_exemplo mundo_exemplo
        = Some ((0, fila_cheia_exemplo), w') ∧
        proximo_id_peca w' = 0 ∧
        id <$> (fst <$> gerarPeca w') = Some 0.
Proof.
  split; [reflexivity |].
  destruct (inserirPeca_cheia_nao_consome_id fila_cheia_exemplo mundo_exemplo
              eq_refl) as (w' & Hins & Hid & _ & _ & Hnext).
  exists w'. split; [exact Hins |]. split; [exact Hid | exact Hnext].
Defined.

(** Filling the full start-up queue with 3 more pieces: [tamanho] goes from
    5 to 8, [tras] from 4 to 2, slots 0, 1 and 2 are overwritten by the
    pieces with ids 0, 1 and 2, slot 3 keeps its piece. *)
Lemma preencherFilaInicial_ignora_ocupacao_witness :
  0 <= 3 ∧ -1 <= tras fila_cheia_exemplo < INT_MAX ∧
  ∃ fila' w',
    preencherFilaInicial fila_cheia_exemplo 3 mundo_exemplo = Some (fila', w') ∧
    tamanho fila' = 8 ∧ tamanho fila' > CAPACIDADE_FILA ∧
    tras fila' = 2 ∧
    id <$> percurso 3 (elementos fila') 0 = [0; 1; 2] ∧
    slot (elementos fila') 3 = {| tipo := "L"%char; id := 3 |}.
Proof.
  assert (0 <= 3) as H0 by lia.
  assert (-1 <= tras fila_cheia_exemplo < INT_MAX) as Ht
    by (unfold INT_MAX; simpl; lia).
  split; [exact H0 |]. split; [exact Ht |].
  destruct (preencherFilaInicial_ignora_ocupacao fila_cheia_exemplo 3
              mundo_exemplo H0 Ht)
    as (fila' & w' & Hrun & Htam & _ & Hgt & _ & _ & _ & Htr & Hper & Hframe).
  - unfold INT_MIN, INT_MAX, CAPACIDADE_FILA. simpl. lia.
  - exists fila', w'. split; [exact Hrun |]. split; [exact Htam |].
    split; [apply Hgt; unfold CAPACIDADE_FILA; simpl; lia |].
    split; [exact Htr |]. split.
    + change ((tras fila_cheia_exemplo + 1) mod CAPACIDADE_FILA) with 0 in Hper.
      change (Z.to_nat (Z.min 3 CAPACIDADE_FILA)) with 3%nat in Hper.
      rewrite Hper. reflexivity.
    + rewrite (Hframe 3); [reflexivity | unfold CAPACIDADE_FILA; lia |].
      intros j Hj. unfold CAPACIDADE_FILA in *. simpl tras.
      assert (j = 0 ∨ j = 1 ∨ j = 2) as [-> | [-> | ->]] by lia; discriminate.
Defined.

(** [preencherFilaInicial(fila, 10)] on a freshly initialised queue. *)
Lemma preencherFilaInicial_limita_witness :
  10 > CAPACIDADE_FILA ∧
  ∃ fila' w',
    preencherFilaInicial (inicializarFila fila_nao_inicializada) 10 mundo_exemplo
    = Some (fila', w') ∧
    tamanho fila' = 5 ∧ stdout w' = [].
Proof.
  assert (10 > CAPACIDADE_FILA) as Hn by (unfold CAPACIDADE_FILA; lia).
  split; [exact Hn |].
  exact (preencherFilaInicial_limita fila_nao_inicializada 10 mundo_exemplo Hn).
Defined.

(** A fill of 3 against three calls of [inserirPeca]. *)
Lemma preencherFilaInicial_refina_inserirPeca_witness :
  0 <= 3 ∧
  ∃ fila' w1 w2,
    preencherFilaInicial (inicializarFila fila_nao_inicializada) 3 mundo_exemplo
    = Some (fila', w1) ∧
    enfileirar_min_vezes (inicializarFila fila_nao_inicializada) 3 mundo_exemplo
    = Some (([1; 1; 1], fila'), w2) ∧
    proximo_id_peca w1 = proximo_id_peca w2 ∧
    rand_chamadas w1 = rand_chamadas w2 ∧
    rand_chamadas w1 = 3%N.
Proof.
  assert (0 <= 3) as H0 by lia.
  split; [exact H0 |].
  exact (preencherFilaInicial_refina_inserirPeca fila_nao_inicializada 3
           mundo_exemplo H0).
Defined.


(** The display of the full start-up queue. *)
Lemma exibirFila_percorre_ocupados_witness :
  frente_valida fila_cheia_exemplo ∧
  ∃ w', exibirFila fila_cheia_exemplo mundo_exemplo = Some (tt, w') ∧
        pecas_exibidas (stdout w')
        = [ {| tipo := "I"%char; id := 0 |}; {| tipo := "O"%char; id := 1 |};
            {| tipo := "T"%char; id := 2 |}; {| tipo := "L"%char; id := 3 |};
            {| tipo := "I"%char; id := 4 |} ].
Proof.
  assert (frente_valida fila_cheia_exemplo) as Hf
    by (unfold frente_valida, CAPACIDADE_FILA; simpl; lia).
  split; [exact Hf |].
  destruct (exibirFila_percorre_ocupados fila_cheia_exemplo mundo_exemplo Hf)
    as ((w' & Hrun & _ & Hout) & _).
  exists w'. split; [exact Hrun | exact Hout].
Defined.

(** * Further properties of the code *)

(** ** The factory and the edges of the bulk fill *)

(** X1. [gerarPeca] never reads outside [tipos] and always returns: the piece
    has one of the four labels 'I', 'O', 'T', 'L', namely the one at
    subscript [rand() % 4], and the current value of the counter as id;
    exactly one value is drawn from [rand()] and nothing is printed. *)
Theorem gerarPeca_rotulo_valido (w : Mundo) :
  ∃ p w',
    gerarPeca w = Some (p, w') ∧
    tipo p ∈ tipos ∧
    tipos !! Z.to_nat (sorteio w) = Some (tipo p) ∧
    id p = proximo_id_peca w ∧
    rand_chamadas w' = N.succ (rand_chamadas w) ∧
    stdout w' = stdout w.
Proof.
  exists (peca_gerada w), (mundo_apos_gerar w).
  split; [apply gerarPeca_eq |]. split; [apply tipo_peca_gerada |].
  split; [| repeat split].
  pose proof (sorteio_range w) as Hs. unfold peca_gerada. simpl.
  assert (sorteio w = 0 ∨ sorteio w = 1 ∨ sorteio w = 2 ∨ sorteio w = 3)
    as Hc by lia.
  destruct Hc as [-> | [-> | [-> | ->]]]; reflexivity.
Qed.

(** X2. A fill of zero or of a negative number of pieces does nothing: the
    queue, the id counter, the random source and the output are left as they
    were, whatever state the queue is in. *)
Theorem preencherFilaInicial_nao_positivo (fila : FilaPecas) (n : Z) (w : Mundo) :
  n <= 0 -> preencherFilaInicial fila n w = Some (fila, w).
Proof.
  intros Hn. unfold preencherFilaInicial. rewrite limite_preencher.
  replace (Z.to_nat (Z.min n CAPACIDADE_FILA)) with 0%nat
    by (unfold CAPACIDADE_FILA; lia).
  reflexivity.
Qed.

Lemma preencherFilaInicial_nao_positivo_witness :
  -3 <= 0 ∧
  preencherFilaInicial fila_cheia_exemplo (-3) mundo_exemplo
  = Some (fila_cheia_exemplo, mundo_exemplo).
Proof.
  assert (-3 <= 0) as Hn by lia.
  split; [exact Hn |].
  exact (preencherFilaInicial_nao_positivo fila_cheia_exemplo (-3) mundo_exemplo Hn).
Defined.

(** ** The queue as a FIFO *)

Lemma pecas_inseridas_app (l1 l2 : list Saida) :
  pecas_inseridas (l1 ++ l2) = pecas_inseridas l1 ++ pecas_inseridas l2.
Proof. apply omap_app. Qed.

Lemma pecas_jogadas_app (l1 l2 : list Saida) :
  pecas_jogadas (l1 ++ l2) = pecas_jogadas l1 ++ pecas_jogadas l2.
Proof. apply omap_app. Qed.

Lemma peca_eta (p : Peca) : {| tipo := tipo p; id := id p |} = p.
Proof. destruct p. reflexivity. Qed.

Lemma ids_jogados_pecas (o : list Saida) :
  ids_jogados o = id <$> pecas_jogadas o.
Proof.
  induction o as [| s o IHo]; [reflexivity |].
  unfold ids_jogados, pecas_jogadas in *.
  destruct s; cbn [omap list_omap fmap list_fmap id]; rewrite ?IHo; reflexivity.
Qed.

Lemma ids_inseridos_pecas (o : list Saida) :
  ids_inseridos o = id <$> pecas_inseridas o.
Proof.
  induction o as [| s o IHo]; [reflexivity |].
  unfold ids_inseridos, pecas_inseridas in *.
  destruct s; cbn [omap list_omap fmap list_fmap id]; rewrite ?IHo; reflexivity.
Qed.

Lemma representa_length (fila : FilaPecas) (l : list Peca) :
  representa fila l -> (length l <= 5)%nat.
Proof.
  intros ((_ & _ & Hs) & Htam & _). unfold tamanho_valido, CAPACIDADE_FILA in Hs.
  lia.
Qed.

(** On a coherent queue, a sequence of calls that never removes from the
    empty queue keeps the queue coherent, and the pieces leave in the order
    they came in. *)
Lemma executar_fifo (cs : list Chamada) (fila : FilaPecas) (l : list Peca)
    (w : Mundo) :
  representa fila l -> sem_jogar_em_vazio cs (length l) = true ->
  ∃ fila' w' l' out,
    executar cs fila w = Some (fila', w') ∧
    representa fila' l' ∧
    stdout w' = stdout w ++ out ∧
    pecas_jogadas out ++ l' = l ++ pecas_inseridas out.
Proof.
  revert fila l w. induction cs as [| c cs IH]; intros fila l w Hr Hcs.
  - exists fila, w, l, []. simpl. rewrite !app_nil_r. auto.
  - destruct c; simpl in Hcs.
    + destruct (Nat.ltb_spec (length l) 5) as [Hlt | Hge].
      * destruct (representa_inserirPeca fila l w Hr Hlt) as (fila1 & Hins & _ & Hr1).
        destruct (IH fila1 (l ++ [peca_gerada w])
                    (set_stdout (mundo_apos_gerar w)
                       (stdout w ++ [MsgPecaInserida (tipo (peca_gerada w))
                                                     (id (peca_gerada w))]))
                    Hr1)
          as (fila' & w' & l' & out & Hrun & Hr' & Hout & Hfifo).
        { rewrite length_app. simpl. rewrite Nat.add_1_r. exact Hcs. }
        exists fila', w', l',
          (MsgPecaInserida (tipo (peca_gerada w)) (id (peca_gerada w)) :: out).
        split; [rewrite (executar_cons ChInserir _ _ _ _ _ _ Hins); exact Hrun |].
        split; [exact Hr' |]. split.
        -- rewrite Hout. simpl. rewrite <- app_assoc. reflexivity.
        -- cbn [pecas_jogadas pecas_inseridas omap list_omap].
           fold (pecas_jogadas out). fold (pecas_inseridas out).
           rewrite Hfifo, <- app_assoc, peca_eta. reflexivity.
      * assert (tamanho fila = CAPACIDADE_FILA) as Hfull.
        { pose proof (representa_length fila l Hr).
          destruct Hr as (_ & Htam & _). unfold CAPACIDADE_FILA. lia. }
        destruct (IH fila l (set_stdout w (stdout w ++ [MsgFilaCheia CAPACIDADE_FILA]))
                    Hr Hcs)
          as (fila' & w' & l' & out & Hrun & Hr' & Hout & Hfifo).
        exists fila', w', l', (MsgFilaCheia CAPACIDADE_FILA :: out).
        split; [rewrite (executar_cons ChInserir _ _ _ _ _ _
                           (inserirPeca_cheia fila w Hfull)); exact Hrun |].
        split; [exact Hr' |]. split.
        -- rewrite Hout. simpl. rewrite <- app_assoc. reflexivity.
        -- exact Hfifo.
    + destruct l as [| p l]; [discriminate |]. simpl in Hcs.
      destruct (representa_jogarPeca fila p l w Hr) as (Hj & Hr1).
      destruct (IH (fila_apos_jogar fila) l
                  (set_stdout w (stdout w ++ [MsgPecaJogada (tipo p) (id p)]))
                  Hr1 Hcs)
        as (fila' & w' & l' & out & Hrun & Hr' & Hout & Hfifo).
      exists fila', w', l', (MsgPecaJogada (tipo p) (id p) :: out).
      split; [rewrite (executar_cons ChJogar _ _ _ _ _ _ Hj); exact Hrun |].
      split; [exact Hr' |]. split.
      * rewrite Hout. simpl. rewrite <- app_assoc. reflexivity.
      * cbn [pecas_jogadas pecas_inseridas omap list_omap].
        fold (pecas_jogadas out). fold (pecas_inseridas out).
        rewrite peca_eta. simpl. rewrite Hfifo. reflexivity.
Qed.

(** X3. The circular buffer is a FIFO: on a coherent queue holding [l], any
    sequence of [inserirPeca] and [jogarPeca] calls that never removes from
    the empty queue runs to its end, leaves a coherent queue, and the pieces
    removed followed by the pieces left are the pieces held at first
    followed by the pieces inserted: pieces leave in the order they came
    in, through any number of wrap-arounds; [tamanho] is the number of
    pieces left. *)
Theorem fila_circular_fifo (cs : list Chamada) (fila : FilaPecas) (l : list Peca)
    (w : Mundo) :
  representa fila l -> sem_jogar_em_vazio cs (length l) = true ->
  ∃ fila' w' l' out,
    executar cs fila w = Some (fila', w') ∧
    representa fila' l' ∧
    tamanho fila' = Z.of_nat (length l') ∧
    stdout w' = stdout w ++ out ∧
    pecas_jogadas out ++ l' = l ++ pecas_inseridas out ∧
    ids_jogados out ++ (id <$> l') = (id <$> l) ++ ids_inseridos out.
Proof.
  intros Hr Hcs.
  destruct (executar_fifo cs fila l w Hr Hcs)
    as (fila' & w' & l' & out & Hrun & Hr' & Hout & Hfifo).
  exists fila', w', l', out.
  split; [exact Hrun |]. split; [exact Hr' |].
  split; [apply Hr' |]. split; [exact Hout |]. split; [exact Hfifo |].
  rewrite ids_jogados_pecas, ids_inseridos_pecas, <- !fmap_app, Hfifo.
  reflexivity.
Qed.

Lemma representa_fila_cheia_exemplo :
  representa fila_cheia_exemplo (vec_to_list (elementos fila_cheia_exemplo)).
Proof.
  unfold representa, fila_valida, frente_valida, tras_valido, tamanho_valido,
    CAPACIDADE_FILA.
  simpl. repeat split; try lia; reflexivity.
Qed.

Lemma representa_fila_vazia_exemplo : representa fila_vazia_exemplo [].
Proof.
  unfold representa, fila_valida, frente_valida, tras_valido, tamanho_valido,
    CAPACIDADE_FILA.
  simpl. repeat split; try lia; reflexivity.
Qed.

(** One removal and one insertion on the full start-up queue. *)
Lemma fila_circular_fifo_witness :
  representa fila_cheia_exemplo (vec_to_list (elementos fila_cheia_exemplo)) ∧
  ∃ fila' w' l' out,
    executar [ChJogar; ChInserir] fila_cheia_exemplo mundo_exemplo
    = Some (fila', w') ∧
    tamanho fila' = Z.of_nat (length l') ∧
    ids_jogados out ++ (id <$> l') = [0; 1; 2; 3; 4] ++ ids_inseridos out.
Proof.
  split; [exact representa_fila_cheia_exemplo |].
  destruct (fila_circular_fifo [ChJogar; ChInserir] fila_cheia_exemplo _
              mundo_exemplo representa_fila_cheia_exemplo eq_refl)
    as (fila' & w' & l' & out & Hrun & _ & Htam & _ & _ & Hids).
  exists fila', w', l', out. split; [exact Hrun |]. split; [exact Htam | exact Hids].
Defined.

(** X4. A removal attempted on an empty coherent queue returns 0, prints the
    "queue empty" message and sets [tras] to -1; the queue it leaves is
    still coherent exactly when [frente] is 0.  With any other [frente] the
    next insertion goes to slot 0 while the next removal reads slot
    [frente]. *)
Theorem jogarPeca_vazia_coerente_sse_frente_0 (fila : FilaPecas) (w : Mundo) :
  representa fila [] ->
  jogarPeca fila w
  = Some ((0, set_tras fila (-1)), set_stdout w (stdout w ++ [MsgFilaVazia])) ∧
  (representa (set_tras fila (-1)) [] ↔ frente fila = 0) ∧
  (tras (set_tras fila (-1)) + 1) mod CAPACIDADE_FILA = 0.
Proof.
  intros ((Hf & Ht & Hs) & Htam & Hpos & _). simpl in Htam.
  split; [apply jogarPeca_vazia, Htam |]. split; [| reflexivity].
  unfold frente_valida, CAPACIDADE_FILA in Hf. split.
  - intros (_ & _ & Hpos' & _). simpl in Hpos'. rewrite Htam in Hpos'.
    unfold CAPACIDADE_FILA in Hpos'.
    rewrite Z.add_0_r, (Z.mod_small (frente fila)) in Hpos' by lia.
    symmetry. exact Hpos'.
  - intros H0. split; [| split; [| split]].
    + split; [exact Hf |]. split; [| exact Hs].
      unfold tras_valido, CAPACIDADE_FILA. simpl. lia.
    + exact Htam.
    + simpl. rewrite H0, Htam. reflexivity.
    + reflexivity.
Qed.

(** A drained queue whose [frente] is 1: the failed removal breaks it. *)
Lemma jogarPeca_vazia_coerente_sse_frente_0_witness :
  representa fila_vazia_exemplo [] ∧
  jogarPeca fila_vazia_exemplo mundo_exemplo
  = Some ((0, set_tras fila_vazia_exemplo (-1)),
          set_stdout mundo_exemplo [MsgFilaVazia]) ∧
  (representa (set_tras fila_vazia_exemplo (-1)) [] ↔ 1 = 0).
Proof.
  split; [exact representa_fila_vazia_exemplo |].
  destruct (jogarPeca_vazia_coerente_sse_frente_0 fila_vazia_exemplo
              mundo_exemplo representa_fila_vazia_exemplo) as (Hj & Hiff & _).
  split; [exact Hj | exact Hiff].
Defined.

(** X5. [inicializarFila] repairs any queue: whatever the fields and the
    array hold before (leftover bytes, or the incoherent state a failed
    removal leaves), after [inicializarFila] every sequence of calls that
    never removes from the empty queue runs to its end on a coherent queue,
    and the pieces removed followed by the pieces left are exactly the
    pieces inserted, in insertion order. *)
Theorem inicializarFila_repara (fila : FilaPecas) (cs : list Chamada) (w : Mundo) :
  sem_jogar_em_vazio cs 0 = true ->
  ∃ fila' w' l' out,
    executar cs (inicializarFila fila) w = Some (fila', w') ∧
    representa fila' l' ∧
    stdout w' = stdout w ++ out ∧
    pecas_jogadas out ++ l' = pecas_inseridas out.
Proof.
  intros Hcs.
  apply (executar_fifo cs (inicializarFila fila) [] w
           (representa_vazia_inicializarFila fila) Hcs).
Qed.

(** The incoherent queue left by a failed removal, initialised again: the
    piece inserted is the piece removed. *)
Lemma inicializarFila_repara_witness :
  sem_jogar_em_vazio [ChInserir; ChJogar] 0 = true ∧
  ∃ fila' w' l' out,
    executar [ChInserir; ChJogar]
             (inicializarFila (set_tras fila_vazia_exemplo (-1))) mundo_exemplo
    = Some (fila', w') ∧
    pecas_jogadas out ++ l' = pecas_inseridas out.
Proof.
  split; [reflexivity |].
  destruct (inicializarFila_repara (set_tras fila_vazia_exemplo (-1))
              [ChInserir; ChJogar] mundo_exemplo eq_refl)
    as (fila' & w' & l' & out & Hrun & _ & _ & Hfifo).
  exists fila', w', l', out. split; [exact Hrun | exact Hfifo].
Defined.

(** ** The text of the display *)

(** The loop of [exibirFila] with [n] slots to go, [count] of [tamanho]
    already shown: an arrow follows every piece but the last. *)
Lemma exibir_laco_texto (n : nat) (fila : FilaPecas) (i count : Z) (w : Mundo) :
  0 <= i < CAPACIDADE_FILA -> 0 <= count ->
  count + Z.of_nat n = tamanho fila -> tamanho fila <= INT_MAX ->
  exibir_laco n fila i count w
  = Some (tt, set_stdout w (stdout w
                            ++ itens_com_setas (percurso n (elementos fila) i))).
Proof.
  revert i count w. induction n as [| n IH]; intros i count w Hi Hc Hn Hmax.
  - simpl. rewrite app_nil_r. unfold mret, M_ret. destruct w. reflexivity.
  - cbn [exibir_laco]. desdobrar. rewrite (ler_slot _ _ Hi).
    rewrite avanco_circular by (unfold CAPACIDADE_FILA, INT_MAX in *; lia).
    assert (int_sub (tamanho fila) 1 = tamanho fila - 1) as ->
      by (apply int_wrap_id; unfold INT_MIN, INT_MAX in *; lia).
    assert (int_add count 1 = count + 1) as ->
      by (apply int_wrap_id; unfold INT_MIN, INT_MAX in *; lia).
    cbn [percurso itens_com_setas].
    destruct n as [| m].
    + destruct (Z.ltb_spec count (tamanho fila - 1)) as [Hlt | _]; [lia |].
      reflexivity.
    + destruct (Z.ltb_spec count (tamanho fila - 1)) as [_ | Hge]; [| lia].
      rewrite IH by (try apply avanco_circular_range; lia).
      cbn [percurso]. cbn [stdout set_stdout].
      rewrite <- !app_assoc. reflexivity.
Qed.

Lemma percurso_nil (n : nat) (v : vec Peca 5) (i : Z) :
  percurso n v i = [] -> n = 0%nat.
Proof. destruct n; [reflexivity | discriminate]. Qed.

(** The display of a queue whose count is a valid [int] count: the header,
    then the slots of the circular walk. *)
Lemma exibirFila_texto_percurso (fila : FilaPecas) (w : Mundo) :
  0 <= tamanho fila <= INT_MAX ->
  tamanho fila = 0 ∨ frente_valida fila ->
  exibirFila fila w
  = Some (tt, set_stdout w
                (stdout w
                 ++ texto_da_fila (percurso (Z.to_nat (tamanho fila))
                                            (elementos fila) (frente fila)))).
Proof.
  intros Ht Hf. unfold exibirFila, texto_da_fila.
  rewrite length_percurso, Z2Nat.id by lia.
  destruct (Z.eqb_spec (tamanho fila) 0) as [Hz | Hz].
  - rewrite Hz. change (Z.to_nat 0) with 0%nat. cbn [percurso]. desdobrar.
    cbn [stdout set_stdout]. rewrite <- app_assoc. reflexivity.
  - destruct Hf as [Hf | Hf]; [contradiction |].
    destruct (percurso (Z.to_nat (tamanho fila)) (elementos fila) (frente fila))
      as [| p l] eqn:Hp.
    { apply percurso_nil in Hp. lia. }
    rewrite <- Hp. desdobrar.
    rewrite exibir_laco_texto by (try exact Hf; lia).
    cbn [stdout set_stdout]. rewrite <- !app_assoc. reflexivity.
Qed.

Lemma exibirFila_texto (fila : FilaPecas) (l : list Peca) (w : Mundo) :
  representa fila l ->
  exibirFila fila w = Some (tt, set_stdout w (stdout w ++ texto_da_fila l)).
Proof.
  intros Hr. pose proof (percurso_representa fila l Hr) as Hp.
  destruct Hr as ((Hf & _ & Hs) & _).
  rewrite exibirFila_texto_percurso, Hp; [reflexivity | | right; exact Hf].
  unfold tamanho_valido, CAPACIDADE_FILA, INT_MAX in *. lia.
Qed.

Lemma anuncios_app (l1 l2 : list Saida) :
  anuncios (l1 ++ l2) = anuncios l1 ++ anuncios l2.
Proof. apply omap_app. Qed.

Lemma anuncios_itens_com_setas (l : list Peca) : anuncios (itens_com_setas l) = [].
Proof.
  induction l as [| p l IH]; [reflexivity |].
  cbn [itens_com_setas]. destruct l as [| q l]; [reflexivity |].
  change (anuncios (ItemFila (tipo p) (id p) :: Seta :: itens_com_setas (q :: l)))
    with (anuncios (itens_com_setas (q :: l))).
  exact IH.
Qed.

Lemma anuncios_texto_da_fila (l : list Peca) : anuncios (texto_da_fila l) = [].
Proof.
  unfold texto_da_fila. destruct l as [| p l]; [reflexivity |].
  change (anuncios (itens_com_setas (p :: l) ++ [NovaLinha; FimDaFila]) = []).
  rewrite anuncios_app, anuncios_itens_com_setas. reflexivity.
Qed.

Lemma pecas_exibidas_itens_com_setas (l : list Peca) :
  pecas_exibidas (itens_com_setas l) = l.
Proof.
  induction l as [| p l IH]; [reflexivity |].
  cbn [itens_com_setas]. destruct l as [| q l].
  - unfold pecas_exibidas. simpl. rewrite peca_eta. reflexivity.
  - change (pecas_exibidas (ItemFila (tipo p) (id p) :: Seta
                            :: itens_com_setas (q :: l)))
      with ({| tipo := tipo p; id := id p |}
            :: pecas_exibidas (itens_com_setas (q :: l))).
    rewrite IH, peca_eta. reflexivity.
Qed.

(** X6. The text of the display.  On a queue whose count is between 0 and
    [INT_MAX] (and whose [frente] is a valid position unless the count is 0)
    [exibirFila] prints the header with the count and the capacity, then
    "[VAZIA]" when the count is 0, and otherwise the [tamanho] slots from
    [frente] on, each followed by an arrow except the last, then the closing
    lines; it prints nothing else and none of the messages of
    [inserirPeca] or [jogarPeca]. *)
Theorem exibirFila_texto_exato (fila : FilaPecas) (w : Mundo) :
  0 <= tamanho fila <= INT_MAX ->
  tamanho fila = 0 ∨ frente_valida fila ->
  let l := percurso (Z.to_nat (tamanho fila)) (elementos fila) (frente fila) in
  exibirFila fila w
  = Some (tt,
          set_stdout w
            (stdout w
             ++ CabecalhoFila (tamanho fila) CAPACIDADE_FILA
                :: (if tamanho fila =? 0 then [TextoVazia]
                    else PrefixoFila :: itens_com_setas l
                                        ++ [NovaLinha; FimDaFila]))) ∧
  pecas_exibidas (itens_com_setas l) = l ∧
  anuncios (texto_da_fila l) = [].
Proof.
  intros Ht Hf l.
  split; [| split; [apply pecas_exibidas_itens_com_setas
                   | apply anuncios_texto_da_fila]].
  rewrite (exibirFila_texto_percurso fila w Ht Hf). fold l.
  unfold texto_da_fila. unfold l at 1. rewrite length_percurso, Z2Nat.id by lia.
  destruct (Z.eqb_spec (tamanho fila) 0) as [Hz | Hz].
  - unfold l. rewrite Hz. reflexivity.
  - destruct l as [| p l'] eqn:Hl; [| reflexivity].
    apply percurso_nil in Hl. lia.
Qed.

(** The display of the full start-up queue, with its four arrows. *)
Lemma exibirFila_texto_exato_witness :
  0 <= tamanho fila_cheia_exemplo <= INT_MAX ∧
  exibirFila fila_cheia_exemplo mundo_exemplo
  = Some (tt,
          set_stdout mundo_exemplo
            [CabecalhoFila 5 5; PrefixoFila;
             ItemFila "I" 0; Seta; ItemFila "O" 1; Seta; ItemFila "T" 2; Seta;
             ItemFila "L" 3; Seta; ItemFila "I" 4; NovaLinha; FimDaFila]).
Proof.
  assert (0 <= tamanho fila_cheia_exemplo <= INT_MAX) as Ht
    by (unfold INT_MAX; simpl; lia).
  assert (tamanho fila_cheia_exemplo = 0 ∨ frente_valida fila_cheia_exemplo) as Hf
    by (right; unfold frente_valida, CAPACIDADE_FILA; simpl; lia).
  split; [exact Ht |].
  exact (proj1 (exibirFila_texto_exato fila_cheia_exemplo mundo_exemplo Ht Hf)).
Defined.

(** ** Sessions of [main] *)

(** The four ways a round of the menu goes, once the queue was displayed. *)
Lemma rodada_casos (opcao : Z) (fila : FilaPecas) (w w1 : Mundo) :
  exibirFila fila w = Some (tt, w1) ->
  rodada opcao fila w
  = let w2 := set_stdout w1 (stdout w1 ++ [TextoMenu]) in
    if opcao =? 1 then
      match jogarPeca fila w2 with
      | Some ((_, fila'), w3) =>
          Some (fila', set_stdout w3 (stdout w3 ++ [MsgPressioneEnter]))
      | None => None
      end
    else if opcao =? 2 then
      match inserirPeca fila w2 with
      | Some ((_, fila'), w3) =>
          Some (fila', set_stdout w3 (stdout w3 ++ [MsgPressioneEnter]))
      | None => None
      end
    else if opcao =? 0 then
      Some (fila, set_stdout w2 (stdout w2 ++ [MsgSaindo]))
    else
      Some (fila, set_stdout w2 (stdout w2 ++ [MsgOpcaoInvalida; MsgPressioneEnter])).
Proof.
  intros Hex. unfold rodada. desdobrar. rewrite Hex. cbv zeta.
  assert (∀ (f : FilaPecas) (w2 : Mundo),
            Some (f, set_stdout (set_stdout w2 (stdout w2 ++ [MsgOpcaoInvalida]))
                       (stdout (set_stdout w2 (stdout w2 ++ [MsgOpcaoInvalida]))
                        ++ [MsgPressioneEnter]))
            = Some (f, set_stdout w2 (stdout w2 ++ [MsgOpcaoInvalida;
                                                    MsgPressioneEnter]))) as Hinv.
  { intros f w2. unfold set_stdout. simpl. rewrite <- app_assoc. reflexivity. }
  destruct opcao as [| p | p]; [reflexivity | | apply Hinv].
  destruct p as [[p | p |] | [p | p |] |]; cbn -[jogarPeca inserirPeca set_stdout];
    try apply Hinv.
  - destruct (inserirPeca fila _) as [[[r f] w3] |]; reflexivity.
  - destruct (jogarPeca fila _) as [[[r f] w3] |]; reflexivity.
Qed.

Lemma chamadas_da_sessao_cons (opcao : Z) (resto : list Z) :
  chamadas_da_sessao (opcao :: resto)
  = if opcao =? 0 then []
    else if opcao =? 1 then ChJogar :: chamadas_da_sessao resto
    else if opcao =? 2 then ChInserir :: chamadas_da_sessao resto
    else chamadas_da_sessao resto.
Proof.
  destruct opcao as [| p | p]; [reflexivity | | reflexivity].
  destruct p as [[p | p |] | [p | p |] |]; reflexivity.
Qed.

Lemma mesmos_anuncios_refl (w : Mundo) : mesmos_anuncios w w.
Proof. split; [apply mesmo_salvo_stdout_refl | reflexivity]. Qed.

(** Text that is not a message of [inserirPeca] or [jogarPeca] keeps two
    worlds related. *)
Lemma mesmos_anuncios_mudo (w1 w2 : Mundo) (out : list Saida) :
  mesmos_anuncios w1 w2 -> anuncios out = [] ->
  mesmos_anuncios (set_stdout w1 (stdout w1 ++ out)) w2.
Proof.
  intros (Hs & Ha) Hout. split.
  - apply mesmo_salvo_stdout_sym, mesmo_salvo_stdout_printf,
      mesmo_salvo_stdout_sym, Hs.
  - simpl. rewrite anuncios_app, Hout, app_nil_r. exact Ha.
Qed.

(** The same message printed in two related worlds keeps them related. *)
Lemma mesmos_anuncios_printf (w1 w2 w1' w2' : Mundo) (out : list Saida) :
  mesmo_salvo_stdout w1' w2' ->
  anuncios (stdout w1) = anuncios (stdout w2) ->
  mesmos_anuncios (set_stdout w1' (stdout w1 ++ out))
                  (set_stdout w2' (stdout w2 ++ out)).
Proof.
  intros (Hi & Hf & Hc) Ha. split.
  - repeat split; assumption.
  - simpl. rewrite !anuncios_app, Ha. reflexivity.
Qed.

(** A queue call made in two related worlds returns the same code and the
    same queue, and leaves the worlds related. *)
Lemma chamar_mesmos_anuncios (c : Chamada) (fila : FilaPecas) (w1 w2 : Mundo) :
  fila_valida fila -> mesmos_anuncios w1 w2 ->
  ∃ r fila' w1' w2',
    chamar c fila w1 = Some ((r, fila'), w1') ∧
    chamar c fila w2 = Some ((r, fila'), w2') ∧
    fila_valida fila' ∧
    mesmos_anuncios w1' w2'.
Proof.
  intros Hv (Hs & Ha).
  destruct (chamar_fila_valida c fila w1 Hv) as (r & fila' & w1' & Hc1 & Hv').
  exists r, fila', w1'. destruct Hv as (Hf & Ht & Htam).
  assert (∃ w2', chamar c fila w2 = Some ((r, fila'), w2') ∧
                 mesmos_anuncios w1' w2') as (w2' & Hc2 & Hw).
  { destruct c; cbn [chamar] in *.
    - destruct (decide (tamanho fila = CAPACIDADE_FILA)) as [Hfull | Hfull].
      + rewrite (inserirPeca_cheia fila w1 Hfull) in Hc1. injection Hc1 as <- <- <-.
        rewrite (inserirPeca_cheia fila w2 Hfull). eexists.
        split; [reflexivity |]. apply mesmos_anuncios_printf; assumption.
      + destruct (inserirPeca_livre fila w1 Hfull Ht) as (v1 & Hv1 & _ & Hi1).
        destruct (inserirPeca_livre fila w2 Hfull Ht) as (v2 & Hv2 & _ & Hi2).
        rewrite <- (peca_gerada_salvo_stdout w1 w2 Hs) in Hv2, Hi2.
        assert (v2 = v1) as -> by congruence.
        rewrite Hi1 in Hc1. injection Hc1 as <- <- <-. rewrite Hi2.
        eexists. split; [reflexivity |].
        apply mesmos_anuncios_printf;
          [apply mundo_apos_gerar_salvo_stdout, Hs | exact Ha].
    - destruct (decide (tamanho fila = 0)) as [Hemp | Hemp].
      + rewrite (jogarPeca_vazia fila w1 Hemp) in Hc1. injection Hc1 as <- <- <-.
        rewrite (jogarPeca_vazia fila w2 Hemp). eexists.
        split; [reflexivity |]. apply mesmos_anuncios_printf; assumption.
      + rewrite (jogarPeca_ocupada fila w1 Hemp Hf) in Hc1.
        injection Hc1 as <- <- <-.
        rewrite (jogarPeca_ocupada fila w2 Hemp Hf). eexists.
        split; [reflexivity |]. apply mesmos_anuncios_printf; assumption. }
  exists w2'. auto.
Qed.

(** The display of a queue whose fields are in range returns and prints no
    message of [inserirPeca] or [jogarPeca]. *)
Lemma exibirFila_fila_valida (fila : FilaPecas) (w : Mundo) :
  fila_valida fila ->
  ∃ out, exibirFila fila w = Some (tt, set_stdout w (stdout w ++ out)) ∧
         anuncios out = [].
Proof.
  intros (Hf & _ & Hs). eexists. split.
  - apply exibirFila_texto_percurso; [| right; exact Hf].
    unfold tamanho_valido, CAPACIDADE_FILA, INT_MAX in *. lia.
  - apply anuncios_texto_da_fila.
Qed.

(** The rounds of the menu against the bare queue calls they stand for. *)
Lemma rodadas_executar (opcoes : list Z) (fila : FilaPecas) (w1 w2 : Mundo) :
  fila_valida fila -> mesmos_anuncios w1 w2 ->
  ∃ fila' w1' w2',
    rodadas opcoes fila w1 = Some (fila', w1') ∧
    executar (chamadas_da_sessao opcoes) fila w2 = Some (fila', w2') ∧
    fila_valida fila' ∧
    mesmos_anuncios w1' w2'.
Proof.
  revert fila w1 w2. induction opcoes as [| o resto IH]; intros fila w1 w2 Hv Hw.
  - exists fila, w1, w2. auto.
  - destruct (exibirFila_fila_valida fila w1 Hv) as (out & Hex & Hout).
    cbn [rodadas]. unfold mbind at 1, M_bind at 1.
    rewrite (rodada_casos o fila w1 _ Hex), chamadas_da_sessao_cons. cbv zeta.
    set (w1a := set_stdout (set_stdout w1 (stdout w1 ++ out)) _).
    assert (mesmos_anuncios w1a w2) as Hwa
      by (apply mesmos_anuncios_mudo; [apply mesmos_anuncios_mudo |]; auto).
    clearbody w1a.
    destruct (Z.eqb_spec o 1) as [-> | H1]; [| destruct (Z.eqb_spec o 2) as [-> | H2]].
    + destruct (chamar_mesmos_anuncios ChJogar fila w1a w2 Hv Hwa)
        as (r & fila1 & w1b & w2b & Hc1 & Hc2 & Hv1 & Hwb).
      cbn [chamar] in Hc1. rewrite Hc1.
      destruct (IH fila1 (set_stdout w1b (stdout w1b ++ [MsgPressioneEnter])) w2b Hv1)
        as (fila' & w1' & w2' & Hrun & Hexe & Hv' & Hw').
      { apply mesmos_anuncios_mudo; auto. }
      exists fila', w1', w2'. cbn [Z.eqb Pos.eqb].
      rewrite (executar_cons ChJogar _ _ _ _ _ _ Hc2). auto.
    + destruct (chamar_mesmos_anuncios ChInserir fila w1a w2 Hv Hwa)
        as (r & fila1 & w1b & w2b & Hc1 & Hc2 & Hv1 & Hwb).
      cbn [chamar] in Hc1. rewrite Hc1.
      destruct (IH fila1 (set_stdout w1b (stdout w1b ++ [MsgPressioneEnter])) w2b Hv1)
        as (fila' & w1' & w2' & Hrun & Hexe & Hv' & Hw').
      { apply mesmos_anuncios_mudo; auto. }
      exists fila', w1', w2'. cbn [Z.eqb Pos.eqb].
      rewrite (executar_cons ChInserir _ _ _ _ _ _ Hc2). auto.
    + destruct (Z.eqb_spec o 0) as [-> | H0].
      * exists fila, (set_stdout w1a (stdout w1a ++ [MsgSaindo])), w2.
        split; [reflexivity |]. split; [reflexivity |]. split; [exact Hv |].
        apply mesmos_anuncios_mudo; auto.
      * destruct (IH fila (set_stdout w1a (stdout w1a ++ [MsgOpcaoInvalida;
                                                          MsgPressioneEnter]))
                    w2 Hv) as (fila' & w1' & w2' & Hrun & Hexe & Hv' & Hw').
        { apply mesmos_anuncios_mudo; auto. }
        exists fila', w1', w2'. auto.
Qed.

(** The bulk fill prints nothing, whatever it is given. *)
Lemma preencher_laco_stdout (voltas : nat) (fila fila' : FilaPecas) (w w' : Mundo) :
  preencher_laco voltas fila w = Some (fila', w') -> stdout w' = stdout w.
Proof.
  revert fila w. induction voltas as [| k IH]; intros fila w Hrun.
  - injection Hrun as _ <-. reflexivity.
  - cbn [preencher_laco] in Hrun. unfold mbind, M_bind, definido in Hrun.
    rewrite gerarPeca_eq in Hrun.
    destruct (escrever _ _ _) as [v |]; [| discriminate].
    apply IH in Hrun. exact Hrun.
Qed.

Lemma chamadas_da_sessao_length (opcoes : list Z) :
  (length (chamadas_da_sessao opcoes) <= length opcoes)%nat.
Proof.
  induction opcoes as [| o resto IH]; [reflexivity |].
  rewrite chamadas_da_sessao_cons.
  destruct (o =? 0); [simpl; lia |].
  destruct (o =? 1); [simpl; lia |].
  destruct (o =? 2); simpl; lia.
Qed.

Lemma ids_jogados_anuncios (l : list Saida) :
  ids_jogados (anuncios l) = ids_jogados l.
Proof.
  induction l as [| s l IH]; [reflexivity |].
  unfold ids_jogados, anuncios in *.
  destruct s; cbn [omap list_omap e_anuncio]; rewrite ?IH; reflexivity.
Qed.

Lemma ids_inseridos_anuncios (l : list Saida) :
  ids_inseridos (anuncios l) = ids_inseridos l.
Proof.
  induction l as [| s l IH]; [reflexivity |].
  unfold ids_inseridos, anuncios in *.
  destruct s; cbn [omap list_omap e_anuncio]; rewrite ?IH; reflexivity.
Qed.

(** A list that starts a run of consecutive integers is such a run. *)
Lemma prefixo_seqZ (l1 l2 : list Z) (a n : Z) :
  l1 ++ l2 = seqZ a n -> l1 = seqZ a (Z.of_nat (length l1)).
Proof.
  intros Heq. assert (length l1 + length l2 = Z.to_nat n)%nat as Hlen
    by (rewrite <- length_app, Heq; apply length_seqZ).
  apply list_eq. intros i.
  destruct (Nat.lt_ge_cases i (length l1)) as [Hlt | Hge].
  - rewrite <- (lookup_app_l l1 l2) by exact Hlt. rewrite Heq.
    rewrite !lookup_seqZ_lt by lia. reflexivity.
  - rewrite lookup_ge_None_2 by exact Hge.
    rewrite lookup_seqZ_ge by lia. reflexivity.
Qed.

Lemma sufixo_seqZ (l1 l2 : list Z) (a n : Z) :
  l1 ++ l2 = seqZ a n ->
  l2 = seqZ (a + Z.of_nat (length l1)) (Z.of_nat (length l2)).
Proof.
  intros Heq. assert (length l1 + length l2 = Z.to_nat n)%nat as Hlen
    by (rewrite <- length_app, Heq; apply length_seqZ).
  apply list_eq. intros i.
  destruct (Nat.lt_ge_cases i (length l2)) as [Hlt | Hge].
  - replace (l2 !! i) with ((l1 ++ l2) !! (length l1 + i)%nat)
      by (rewrite lookup_app_r by lia; f_equal; lia).
    rewrite Heq, !lookup_seqZ_lt by lia. f_equal. lia.
  - rewrite lookup_ge_None_2 by exact Hge.
    rewrite lookup_seqZ_ge by lia. reflexivity.
Qed.

(** X7. A session of [main] is the sequence of queue calls its options stand
    for, with the display in between.  For every content of the local
    variable and every list of numeric options: the run never reads or
    writes outside the array (it is defined to the end), the fields of the
    queue stay in range ([0 <= tamanho <= 5]), and the session leaves the
    same queue, the same id counter and random source, and the same
    messages of [inserirPeca] and [jogarPeca], in the same order, as the
    start-up fill of 5 followed by one [jogarPeca] per option 1 and one
    [inserirPeca] per option 2 read before the first 0. *)
Theorem main_segue_as_chamadas (lixo : FilaPecas) (opcoes : list Z) (w : Mundo) :
  ∃ fila0 w0 fila w1 w2,
    preencherFilaInicial (inicializarFila lixo) CAPACIDADE_FILA w
    = Some (fila0, w0) ∧
    main lixo opcoes w = Some (fila, w1) ∧
    executar (chamadas_da_sessao opcoes) fila0 w0 = Some (fila, w2) ∧
    fila_valida fila ∧
    proximo_id_peca w1 = proximo_id_peca w2 ∧
    rand_chamadas w1 = rand_chamadas w2 ∧
    anuncios (stdout w1) = anuncios (stdout w2).
Proof.
  destruct (preencherFilaInicial_representa lixo CAPACIDADE_FILA w)
    as (fila0 & w0 & Hrun & _ & Hr0 & _); [unfold CAPACIDADE_FILA; lia |].
  destruct (rodadas_executar opcoes fila0 w0 w0 (proj1 Hr0)
              (mesmos_anuncios_refl w0))
    as (fila & w1 & w2 & Hrod & Hexe & Hv & (Hi & _ & Hc) & Ha).
  exists fila0, w0, fila, w1, w2.
  split; [exact Hrun |]. split.
  - unfold main. unfold mbind at 1, M_bind at 1. rewrite Hrun. exact Hrod.
  - auto.
Qed.

(** X8. An option other than 0, 1 and 2 changes nothing: the round shows
    the queue and the menu, prints the "invalid option" message and the
    pause prompt, and returns the queue it was given; no piece is generated
    and no message of [inserirPeca] or [jogarPeca] is printed. *)
Theorem rodada_opcao_invalida (opcao : Z) (fila : FilaPecas) (w : Mundo) :
  opcao ≠ 0 -> opcao ≠ 1 -> opcao ≠ 2 -> fila_valida fila ->
  ∃ w',
    rodada opcao fila w = Some (fila, w') ∧
    stdout w'
    = stdout w
      ++ texto_da_fila (percurso (Z.to_nat (tamanho fila)) (elementos fila)
                                 (frente fila))
      ++ [TextoMenu; MsgOpcaoInvalida; MsgPressioneEnter] ∧
    mesmos_anuncios w w'.
Proof.
  intros H0 H1 H2 (Hf & Ht & Hs).
  assert (exibirFila fila w
          = Some (tt, set_stdout w
                        (stdout w
                         ++ texto_da_fila (percurso (Z.to_nat (tamanho fila))
                                             (elementos fila) (frente fila)))))
    as Hex.
  { apply exibirFila_texto_percurso; [| right; exact Hf].
    unfold tamanho_valido, CAPACIDADE_FILA, INT_MAX in *. lia. }
  rewrite (rodada_casos opcao fila w _ Hex). cbv zeta.
  apply Z.eqb_neq in H0, H1, H2. rewrite H0, H1, H2.
  eexists. split; [reflexivity |]. split.
  - cbn [stdout set_stdout]. rewrite <- !app_assoc. reflexivity.
  - split.
    + do 2 apply mesmo_salvo_stdout_printf. apply mesmo_salvo_stdout_printf,
        mesmo_salvo_stdout_refl.
    + cbn [stdout set_stdout]. rewrite !anuncios_app, anuncios_texto_da_fila.
      cbn. rewrite !app_nil_r. reflexivity.
Qed.

(** Option 7 typed at the start-up queue. *)
Lemma rodada_opcao_invalida_witness :
  fila_valida fila_cheia_exemplo ∧
  ∃ w', rodada 7 fila_cheia_exemplo mundo_exemplo
        = Some (fila_cheia_exemplo, w') ∧
        mesmos_anuncios mundo_exemplo w'.
Proof.
  assert (fila_valida fila_cheia_exemplo) as Hv
    by apply representa_fila_cheia_exemplo.
  split; [exact Hv |].
  destruct (rodada_opcao_invalida 7 fila_cheia_exemplo mundo_exemplo)
    as (w' & Hrun & _ & Hw); try discriminate; [exact Hv |].
  exists w'. split; [exact Hrun | exact Hw].
Defined.

(** X9. Option 0 ends the session: whatever is typed after the first 0 is
    never read, so the session leaves the same queue, the same counter and
    the same output as if the input had stopped at that 0. *)
Theorem main_para_na_opcao_0 (lixo : FilaPecas) (antes depois : list Z) (w : Mundo) :
  main lixo (antes ++ 0 :: depois) w = main lixo (antes ++ [0]) w.
Proof.
  unfold main. unfold mbind, M_bind.
  destruct (preencherFilaInicial (inicializarFila lixo) CAPACIDADE_FILA w)
    as [[fila w0] |]; [| reflexivity].
  revert fila w0. induction antes as [| o antes IH]; intros fila w0.
  - cbn [app rodadas]. unfold mbind, M_bind.
    destruct (rodada 0 fila w0) as [[fila' w'] |]; reflexivity.
  - cbn [app rodadas]. unfold mbind, M_bind.
    destruct (rodada o fila w0) as [[fila' w'] |]; [| reflexivity].
    destruct (o =? 0); [reflexivity | apply IH].
Qed.

(** X10. Pieces are played in id order.  In a session of [main] that starts
    with the counter at 0, never picks option 1 on an empty queue and reads
    at most [INT_MAX - 5] options, the ids announced by [jogarPeca] are
    0, 1, 2, ... with none skipped and none repeated: the pieces of the
    start-up fill first, then the inserted ones, in insertion order.  The
    queue the session leaves is coherent and holds the ids that come next,
    in order. *)
Theorem main_joga_em_ordem_de_id (lixo : FilaPecas) (fonte : N -> N)
    (opcoes : list Z) :
  sem_jogar_em_vazio (chamadas_da_sessao opcoes) 5 = true ->
  Z.of_nat (length opcoes) <= INT_MAX - 5 ->
  ∃ fila w l,
    main lixo opcoes (mundo_inicial fonte) = Some (fila, w) ∧
    ids_jogados (stdout w)
    = seqZ 0 (Z.of_nat (length (ids_jogados (stdout w)))) ∧
    representa fila l ∧
    id <$> l = seqZ (Z.of_nat (length (ids_jogados (stdout w))))
                    (Z.of_nat (length l)).
Proof.
  intros Hcs Hlen. set (w0 := mundo_inicial fonte).
  set (cs := chamadas_da_sessao opcoes) in *.
  (* the start-up fill *)
  destruct (preencherFilaInicial_representa lixo CAPACIDADE_FILA w0)
    as (fila0 & w0' & Hrun & _ & Hr0 & Hw0); [unfold CAPACIDADE_FILA; lia |].
  change (Z.to_nat (Z.min CAPACIDADE_FILA CAPACIDADE_FILA)) with 5%nat in Hr0, Hw0.
  assert (stdout w0' = []) as Hout0.
  { unfold preencherFilaInicial in Hrun.
    apply preencher_laco_stdout in Hrun. exact Hrun. }
  assert (proximo_id_peca w0' = 5) as Hid0 by (rewrite (proj1 Hw0); reflexivity).
  (* the session against its calls *)
  destruct (rodadas_executar opcoes fila0 w0' w0' (proj1 Hr0)
              (mesmos_anuncios_refl w0'))
    as (fila & w1 & w2 & Hrod & Hexe & _ & _ & Ha).
  fold cs in Hexe.
  (* FIFO order of the calls *)
  destruct (executar_fifo cs fila0 _ w0' Hr0 Hcs)
    as (fila' & w2' & l' & out & Hexe' & Hr' & Hout & Hfifo).
  exists fila, w1, l'. split.
  { unfold main. unfold mbind at 1, M_bind at 1. fold w0. rewrite Hrun. exact Hrod. }
  rewrite Hexe in Hexe'. injection Hexe' as <- <-.
  rewrite Hout0 in Hout. simpl in Hout.
  (* the ids inserted are 5, 6, ... *)
  pose proof (chamadas_da_sessao_length opcoes) as Hcslen. fold cs in Hcslen.
  destruct (executar_ids_consecutivos cs fila0 w0' (proj1 Hr0))
    as (fila'' & w2'' & m & Hexe'' & _ & _ & Hins).
  { rewrite Hid0. unfold INT_MIN. lia. }
  { rewrite Hid0. unfold INT_MAX in *. lia. }
  rewrite Hexe in Hexe''. injection Hexe'' as <- <-.
  rewrite Hout0, Hid0, Hout in Hins. simpl in Hins.
  (* what was played is a prefix of 0, 1, 2, ... *)
  assert (ids_jogados out ++ (id <$> l') = seqZ 0 (5 + Z.of_nat m)) as Hseq.
  { rewrite ids_jogados_pecas, <- fmap_app, Hfifo, fmap_app,
      <- ids_inseridos_pecas, Hins.
    rewrite (seqZ_app 0 5 (Z.of_nat m)) by lia. reflexivity. }
  rewrite <- (ids_jogados_anuncios (stdout w1)), Ha, ids_jogados_anuncios, Hout.
  split; [exact (prefixo_seqZ _ _ _ _ Hseq) |]. split; [exact Hr' |].
  rewrite <- (length_fmap id l').
  exact (sufixo_seqZ _ _ _ _ Hseq).
Qed.

(** A session on concrete data: three pieces played, one inserted. *)
Lemma main_joga_em_ordem_de_id_witness :
  sem_jogar_em_vazio (chamadas_da_sessao [1; 1; 2; 1; 0]) 5 = true ∧
  ∃ fila w,
    main fila_nao_inicializada [1; 1; 2; 1; 0] (mundo_inicial fonte_exemplo)
    = Some (fila, w) ∧
    ids_jogados (stdout w)
    = seqZ 0 (Z.of_nat (length (ids_jogados (stdout w)))).
Proof.
  split; [reflexivity |].
  destruct (main_joga_em_ordem_de_id fila_nao_inicializada fonte_exemplo
              [1; 1; 2; 1; 0] eq_refl) as (fila & w & l & Hrun & Hids & _).
  - unfold INT_MAX. simpl. lia.
  - exists fila, w. split; [exact Hrun | exact Hids].
Defined.

(** ** Filling and draining *)

(** X11. Fill then drain.  After [preencherFilaInicial(fila, n)] on a
    freshly initialised queue, with [n >= 0], exactly [min(n, 5)] calls of
    [jogarPeca] succeed in a row; they announce the generated pieces in the
    order [gerarPeca] built them, and leave the queue empty and coherent.
    The fill itself prints nothing. *)
Theorem preencher_e_esvaziar (lixo : FilaPecas) (n : Z) (w : Mundo) :
  0 <= n ->
  let k := Z.to_nat (Z.min n CAPACIDADE_FILA) in
  ∃ fila1 w1 fila2 w2,
    preencherFilaInicial (inicializarFila lixo) n w = Some (fila1, w1) ∧
    stdout w1 = stdout w ∧
    repetir k ChJogar fila1 w1 = Some ((replicate k 1, fila2), w2) ∧
    stdout w2 = stdout w ++ (anuncio_jogada <$> pecas_geradas k w) ∧
    representa fila2 [] ∧
    tamanho fila2 = 0.
Proof.
  intros Hn k.
  destruct (preencherFilaInicial_representa lixo n w Hn)
    as (fila1 & w1 & Hrun & _ & Hr1 & _). fold k in Hr1.
  assert (stdout w1 = stdout w) as Hout1.
  { unfold preencherFilaInicial in Hrun.
    apply preencher_laco_stdout in Hrun. exact Hrun. }
  assert (length (pecas_geradas k w) = k) as Hlen.
  { clear. generalize k. intros j. revert w.
    induction j as [| j IH]; intros w; simpl; [| rewrite IH]; reflexivity. }
  rewrite <- (app_nil_r (pecas_geradas k w)) in Hr1.
  destruct (repetir_jogar_representa _ _ fila1 w1 Hr1)
    as (fila2 & w2 & Hrep & Hr2 & _ & _ & _ & Hout2).
  rewrite Hlen in Hrep.
  exists fila1, w1, fila2, w2.
  split; [exact Hrun |]. split; [exact Hout1 |]. split; [exact Hrep |].
  split; [rewrite Hout2, Hout1; reflexivity |]. split; [exact Hr2 |].
  apply Hr2.
Qed.

(** A fill of 7, clamped to 5, then five removals. *)
Lemma preencher_e_esvaziar_witness :
  0 <= 7 ∧
  ∃ fila1 w1 fila2 w2,
    preencherFilaInicial (inicializarFila fila_nao_inicializada) 7 mundo_exemplo
    = Some (fila1, w1) ∧
    repetir 5 ChJogar fila1 w1 = Some (([1; 1; 1; 1; 1], fila2), w2) ∧
    ids_jogados (stdout w2) = [0; 1; 2; 3; 4] ∧
    tamanho fila2 = 0.
Proof.
  assert (0 <= 7) as Hn by lia.
  split; [exact Hn |].
  destruct (preencher_e_esvaziar fila_nao_inicializada 7 mundo_exemplo Hn)
    as (fila1 & w1 & fila2 & w2 & Hrun & _ & Hrep & Hout & _ & Htam).
  exists fila1, w1, fila2, w2.
  split; [exact Hrun |]. split; [exact Hrep |]. split; [| exact Htam].
  rewrite Hout. reflexivity.
Defined.
